(** * WCAG contrast ratio and comfort labelling of [data/generate_dataset.py]

    The script computes the WCAG 2.1 relative luminance of an RGB colour,
    the contrast ratio of two colours, labels a pair "comfortable" when the
    ratio reaches 4.5 and accumulates 5000 randomly drawn pairs.

    Python floats are read as real numbers ([R]): every arithmetic
    operation of the script is taken exact, rounding is not modelled.
    Integers that meet a float are coerced with [IZR], as [v / 255.0]
    does.  Exceptions are explicit: a computation returns an [outcome].

    The file also covers the line cleaning of [data/clean_feedback.py],
    the element ids of [ml_model/train_context_model.py] and, from
    [test_api.py], the emoji fallback of [safe_print] and the counting
    of [test_predict_endpoint].  Python strings are lists of code
    points; what the scripts print is left out. *)

From Stdlib Require Import Reals Lra Lia ZArith List Ascii String Bool.
Import ListNotations.
Open Scope R_scope.

(** ** Outcomes of a Python evaluation *)

Inductive exn : Type :=
| TypeError
| ZeroDivisionError
| IndexError.

Inductive outcome (A : Type) : Type :=
| Ok (a : A)
| Raise (e : exn).

Arguments Ok {A} a.
Arguments Raise {A} e.

Definition bind {A B : Type} (m : outcome A) (k : A -> outcome B) : outcome B :=
  match m with
  | Ok a => k a
  | Raise e => Raise e
  end.

Notation "x <- m ;; k" := (bind m (fun x => k))
  (at level 61, m at next level, right associativity).

(** ** Float primitives the script uses *)

(** [x ** y] on floats.  The script raises only bases that are positive
    (see [gamma_base_positive]), where the power is [exp (y * ln x)].
    The [OverflowError] of a result beyond the range of a double (a
    channel near 1e131 and above) is not modelled: statements are made
    on channels far below, where the power is finite. *)
Definition float_pow (x y : R) : R := Rpower x y.

(** [x / y] with a divisor that is not a literal.  The test for zero is
    made on the exact value; on channels that are not negative the
    divisor is at least 0.05, in the code as here. *)
Definition float_div (x y : R) : outcome R :=
  if Req_dec_T y 0 then Raise ZeroDivisionError else Ok (x / y).

(** [max(a, b)] keeps its first argument unless the second is greater. *)
Definition py_max (a b : R) : R := if Rlt_dec a b then b else a.

(** [min(a, b)] keeps its first argument unless the second is smaller. *)
Definition py_min (a b : R) : R := if Rlt_dec b a then b else a.

(** Binding the three parameters [r, g, b] from [*c]. *)
Definition unpack3 (c : list R) : outcome (R * R * R) :=
  match c with
  | [r; g; b] => Ok (r, g, b)
  | _ => Raise TypeError
  end.

(** ** Step 1 of the script: luminance and contrast *)

(** The element expression of the second comprehension of [luminance]. *)
Definition gamma (v : R) : R :=
  if Rle_dec v 0.03928 then v / 12.92 else float_pow ((v + 0.055) / 1.055) 2.4.

Definition luminance (r g b : R) : R :=
  let a := map (fun v => v / 255.0) [r; g; b] in
  let a := map gamma a in
  0.2126 * nth 0 a 0 + 0.7152 * nth 1 a 0 + 0.0722 * nth 2 a 0.

Definition contrast_ratio (fg bg : list R) : outcome R :=
  c1 <- unpack3 fg ;;
  let '(r1, g1, b1) := c1 in
  let L1 := luminance r1 g1 b1 in
  c2 <- unpack3 bg ;;
  let '(r2, g2, b2) := c2 in
  let L2 := luminance r2 g2 b2 in
  float_div (py_max L1 L2 + 0.05) (py_min L1 L2 + 0.05).

(** ** Step 3 of the script: the comfort rule [1 if ratio >= 4.5 else 0] *)

Definition label (ratio : R) : Z :=
  if Rge_dec ratio 4.5 then 1%Z else 0%Z.

(** ** The WCAG 2.1 reference definition, as the specification words it *)

Definition wcag_linearize (v : R) : R :=
  if Rle_dec v 0.03928 then v / 12.92 else Rpower ((v + 0.055) / 1.055) 2.4.

Definition wcag_relative_luminance (r g b : R) : R :=
  0.2126 * wcag_linearize (r / 255)
  + 0.7152 * wcag_linearize (g / 255)
  + 0.0722 * wcag_linearize (b / 255).

(** ** Colours *)

(** A colour as the script builds it: a list of integer channels. *)
Definition color : Type := list Z.

Definition channel_ok (v : Z) : bool := (0 <=? v)%Z && (v <=? 255)%Z.

(** A valid Color: exactly three channels, each in [0, 255]. *)
Definition is_color (c : color) : bool :=
  match c with
  | [r; g; b] => channel_ok r && channel_ok g && channel_ok b
  | _ => false
  end.

(** The coercion of integer channels where they meet float arithmetic. *)
Definition floats (c : color) : list R := map IZR c.

Definition black : color := [0; 0; 0]%Z.
Definition white : color := [255; 255; 255]%Z.

(** ** Steps 2 and 3 of the script: the generation loop *)

(** A value stored in a row: the channels and the label are Python
    integers, the ratio is a float. *)
Inductive cell : Type :=
| CInt (n : Z)
| CFloat (x : R).

(** A row is the dict literal appended to [rows]: keys in insertion order. *)
Definition row : Type := list (string * cell).

(** The column names of the table, in the order of the dict literal. *)
Definition columns : list string :=
  ["fg_r"; "fg_g"; "fg_b"; "bg_r"; "bg_g"; "bg_b"; "contrast_ratio"; "label"]%string.

(** [c[i]] on a list. *)
Definition item (c : color) (i : nat) : outcome Z :=
  match nth_error c i with
  | Some v => Ok v
  | None => Raise IndexError
  end.

Section Generate.

(** The hidden state of the [random] module and its [randint], which
    are not part of the script. *)
Variable gen : Type.
Variable randint : Z -> Z -> gen -> Z * gen.

(** [[random.randint(0, 255) for _ in range(n)]] *)
Fixpoint draw_channels (n : nat) (s : gen) : color * gen :=
  match n with
  | O => ([], s)
  | S k =>
      let (v, s1) := randint 0 255 s in
      let (vs, s2) := draw_channels k s1 in
      (v :: vs, s2)
  end.

(** One iteration of the [for] loop on the pair ([rows], generator). *)
Definition loop_body (w : list row * gen) : outcome (list row * gen) :=
  let (rows, s) := w in
  let (fg, s) := draw_channels 3 s in
  let (bg, s) := draw_channels 3 s in
  ratio <- contrast_ratio (floats fg) (floats bg) ;;
  let lbl := label ratio in
  fg0 <- item fg 0 ;; fg1 <- item fg 1 ;; fg2 <- item fg 2 ;;
  bg0 <- item bg 0 ;; bg1 <- item bg 1 ;; bg2 <- item bg 2 ;;
  Ok (rows ++ [[("fg_r", CInt fg0); ("fg_g", CInt fg1); ("fg_b", CInt fg2);
                ("bg_r", CInt bg0); ("bg_g", CInt bg1); ("bg_b", CInt bg2);
                ("contrast_ratio", CFloat ratio);
                ("label", CInt lbl)]%string],
      s).

(** [for _ in range(n): body] *)
Fixpoint for_range (n : nat) (w : list row * gen) : outcome (list row * gen) :=
  match n with
  | O => Ok w
  | S k => w' <- loop_body w ;; for_range k w'
  end.

(** The script from [rows = []] to the end of the loop. *)
Definition generate (s : gen) : outcome (list row * gen) :=
  for_range (Z.to_nat 5000) ([], s).

End Generate.

Arguments draw_channels {gen} randint n s.
Arguments loop_body {gen} randint w.
Arguments for_range {gen} randint n w.
Arguments generate {gen} randint s.

(** What the specification asks of a stored row: the eight cells of one
    pair of valid colours, its ratio and its label. *)
Definition row_of (fg bg : color) (q : R) (l : Z) : row :=
  [("fg_r", CInt (nth 0 fg 0%Z)); ("fg_g", CInt (nth 1 fg 0%Z));
   ("fg_b", CInt (nth 2 fg 0%Z));
   ("bg_r", CInt (nth 0 bg 0%Z)); ("bg_g", CInt (nth 1 bg 0%Z));
   ("bg_b", CInt (nth 2 bg 0%Z));
   ("contrast_ratio", CFloat q); ("label", CInt l)]%string.

Definition row_sound (rw : row) : Prop :=
  exists fg bg q l,
    rw = row_of fg bg q l /\
    is_color fg = true /\ is_color bg = true /\
    contrast_ratio (floats fg) (floats bg) = Ok q /\ 1 <= q <= 21 /\
    l = label q /\ (l = 0 \/ l = 1)%Z.

(** [rw[k]] on a row, [None] for a missing key. *)
Fixpoint row_get (rw : row) (k : string) : option cell :=
  match rw with
  | [] => None
  | (k', v) :: rest => if String.eqb k k' then Some v else row_get rest k
  end.

(** The six channel cells of a row, foreground first. *)
Definition row_channels (rw : row) : list (option cell) :=
  map (row_get rw) ["fg_r"; "fg_g"; "fg_b"; "bg_r"; "bg_g"; "bg_b"]%string.

(** A linear congruential generator, to run the loop on. *)
Definition lcg_randint (a b : Z) (s : Z) : Z * Z :=
  ((a + s mod (b - a + 1))%Z, ((1103515245 * s + 12345) mod 2147483648)%Z).

(** ** [data/clean_feedback.py]: cleaning the lines of the feedback file *)

(** A Python string: its code points. *)
Definition str : Type := list N.

Definition TAB : N := 9%N.
Definition NEWLINE : N := 10%N.
Definition SPACE : N := 32%N.
Definition COMMA : N := 44%N.

(** [s.startswith(old)] *)
Fixpoint starts_with (old s : str) : bool :=
  match old, s with
  | [], _ => true
  | _ :: _, [] => false
  | a :: old', b :: s' => N.eqb a b && starts_with old' s'
  end.

(** [old in s] *)
Fixpoint contains (old s : str) : bool :=
  match s with
  | [] => starts_with old []
  | _ :: rest => starts_with old s || contains old rest
  end.

(** The scan of [s.replace(old, new)] for a non-empty [old]: left to
    right, an occurrence is replaced and the scan resumes after it;
    [skip] counts the characters of the occurrence still to pass. *)
Fixpoint replace_from (old new : str) (skip : nat) (s : str) : str :=
  match s with
  | [] => []
  | c :: rest =>
      match skip with
      | S k => replace_from old new k rest
      | O =>
          if starts_with old s
          then new ++ replace_from old new (List.length old - 1) rest
          else c :: replace_from old new 0 rest
      end
  end.

(** [s.replace(old, new)]; an empty [old] matches before every character
    and at the end. *)
Definition str_replace (old new s : str) : str :=
  match old with
  | [] => new ++ flat_map (fun c => c :: new) s
  | _ :: _ => replace_from old new 0 s
  end.

Section Strip.

(** [str.isspace] on one code point: the whitespace table of the Python
    runtime, which is not part of the script. *)
Variable isspace : N -> bool.

(** [s.lstrip()] *)
Fixpoint lstrip (s : str) : str :=
  match s with
  | [] => []
  | c :: rest => if isspace c then lstrip rest else s
  end.

(** [s.rstrip()] *)
Definition rstrip (s : str) : str := rev (lstrip (rev s)).

(** [s.strip()] *)
Definition strip (s : str) : str := rstrip (lstrip s).

(** The value of [clean] for one [line] of the input file. *)
Definition clean (line : str) : str :=
  strip (str_replace [SPACE; SPACE] [COMMA] (str_replace [TAB] [COMMA] line)).

(** The text written to [outfile] for the lines read from [infile]. *)
Definition clean_file (lines : list str) : str :=
  flat_map (fun line => clean line ++ [NEWLINE]) lines.

End Strip.

(** The whitespace code points of Python 3, to run [clean] on. *)
Definition py_isspace (c : N) : bool :=
  ((9 <=? c) && (c <=? 13) || (28 <=? c) && (c <=? 32) || (c =? 133)
   || (c =? 160) || (c =? 5760) || (8192 <=? c) && (c <=? 8202)
   || (c =? 8232) || (c =? 8233) || (c =? 8239) || (c =? 8287)
   || (c =? 12288))%N.

(** ** [test_api.py]: printing with an emoji fallback *)

(** The code points of an ASCII literal. *)
Definition codes (s : string) : str :=
  map N_of_ascii (list_ascii_of_string s).

(** The emoji that [safe_print] replaces, in the order of its statements:
    test tube, check mark, cross mark, warning sign with its variation
    selector, magnifying glass, crystal ball, high voltage, shield with
    its variation selector, bar chart, party popper. *)
Definition emoji : list str :=
  [[129514]; [9989]; [10060]; [9888; 65039]; [128269]; [128302]; [9889];
   [128737; 65039]; [128202]; [127881]]%N.

(** The text [safe_print] hands to [print]. *)
Definition safe_print (IS_WINDOWS : bool) (text : str) : str :=
  if IS_WINDOWS then
    let text := str_replace [129514%N] (codes "[TEST]") text in
    let text := str_replace [9989%N] (codes "[OK]") text in
    let text := str_replace [10060%N] (codes "[FAIL]") text in
    let text := str_replace [9888%N; 65039%N] (codes "[WARN]") text in
    let text := str_replace [128269%N] (codes "[CHECK]") text in
    let text := str_replace [128302%N] (codes "[PREDICT]") text in
    let text := str_replace [9889%N] (codes "[PERF]") text in
    let text := str_replace [128737%N; 65039%N] (codes "[ERROR]") text in
    let text := str_replace [128202%N] (codes "[STATS]") text in
    let text := str_replace [127881%N] (codes "[SUCCESS]") text in
    text
  else text.

(** [old] and [new] share no character. *)
Definition disjointb (new old : str) : bool :=
  forallb (fun x => negb (existsb (N.eqb x) old)) new.

(** ** [ml_model/train_context_model.py]: element types and their ids *)

(** A Python dict with string keys and integer values: the pairs in
    insertion order, one per key. *)
Definition dict : Type := list (string * Z).

(** [d[k]]; [None] stands for the [KeyError] of a missing key. *)
Fixpoint dict_get (d : dict) (k : string) : option Z :=
  match d with
  | [] => None
  | (k', v) :: rest => if String.eqb k k' then Some v else dict_get rest k
  end.

(** [d[k] = v]: the value of an existing key is overwritten in place, a
    new key is added at the end. *)
Fixpoint dict_set (d : dict) (k : string) (v : Z) : dict :=
  match d with
  | [] => [(k, v)]
  | (k', v') :: rest =>
      if String.eqb k k' then (k', v) :: rest else (k', v') :: dict_set rest k v
  end.

(** [enumerate(l)], counting from [i]. *)
Fixpoint enumerate_from (i : Z) (l : list string) : list (Z * string) :=
  match l with
  | [] => []
  | t :: rest => (i, t) :: enumerate_from (i + 1) rest
  end.

(** [{t: i+1 for i, t in enumerate(l)}] *)
Definition id_map (l : list string) : dict :=
  fold_left (fun d it => dict_set d (snd it) (fst it + 1)%Z) (enumerate_from 0 l) [].

Definition element_types : list string :=
  ["button"; "a"; "footer"; "header"; "h1"; "p"; "span"; "div"]%string.

Definition element_map : dict := id_map element_types.

Section RandomElement.

(** The generator behind [random.choice]: the index it picks in a
    sequence of the given length, and the next state. *)
Variable gen : Type.
Variable randbelow : nat -> gen -> nat * gen.

(** [random.choice(seq)]; an empty sequence raises [IndexError], which
    is [None] here. *)
Definition random_choice (l : list string) (s : gen) : option string * gen :=
  match l with
  | [] => (None, s)
  | _ :: _ =>
      let (i, s') := randbelow (List.length l) s in
      (nth_error l i, s')
  end.

(** [random_element()]: the chosen type and its id; [None] is an
    exception, from [random.choice] or from the lookup. *)
Definition random_element (s : gen) : option (string * Z) * gen :=
  let (c, s') := random_choice element_types s in
  match c with
  | None => (None, s')
  | Some t =>
      match dict_get element_map t with
      | None => (None, s')
      | Some i => (Some (t, i), s')
      end
  end.

(** [[random_element() for _ in range(n)]] *)
Fixpoint draw_contexts (n : nat) (s : gen) : option (list (string * Z)) * gen :=
  match n with
  | O => (Some [], s)
  | S k =>
      let (c, s1) := random_element s in
      match c with
      | None => (None, s1)
      | Some c =>
          let (cs, s2) := draw_contexts k s1 in
          match cs with
          | None => (None, s2)
          | Some cs => (Some (c :: cs), s2)
          end
      end
  end.

End RandomElement.

Arguments random_choice {gen} randbelow l s.
Arguments random_element {gen} randbelow s.
Arguments draw_contexts {gen} randbelow n s.

(** A generator to run [random_element] on: the state modulo the length. *)
Definition lcg_randbelow (n : nat) (s : Z) : nat * Z :=
  (Z.to_nat (s mod Z.of_nat n), ((1103515245 * s + 12345) mod 2147483648)%Z).

(** ** [test_api.py]: the checks of the predict endpoint *)

(** The body of one request, the ["data"] of a test case. *)
Record payload : Type := {
  fg : color;
  bg : color;
  payload_ratio : R;
  element_type : string;
  font_size : Z;
  font_weight : Z;
  user_scale : R
}.

Record test_case : Type := {
  name : string;
  data : payload;
  expected_comfortable : option bool
}.

Definition test_cases : list test_case :=
  [ {| name := "High Contrast (White on Black)";
       data := {| fg := [255; 255; 255]%Z; bg := [0; 0; 0]%Z;
                  payload_ratio := 21.0; element_type := "button";
                  font_size := 16; font_weight := 400; user_scale := 0.5 |};
       expected_comfortable := Some true |};
    {| name := "Low Contrast (Light Gray on White)";
       data := {| fg := [200; 200; 200]%Z; bg := [255; 255; 255]%Z;
                  payload_ratio := 1.5; element_type := "p";
                  font_size := 14; font_weight := 400; user_scale := 0.5 |};
       expected_comfortable := Some false |};
    {| name := "Medium Contrast (Button)";
       data := {| fg := [255; 255; 255]%Z; bg := [255; 183; 0]%Z;
                  payload_ratio := 1.75; element_type := "button";
                  font_size := 16; font_weight := 600; user_scale := 0.5 |};
       expected_comfortable := Some false |};
    {| name := "WCAG AA Compliant";
       data := {| fg := [0; 0; 0]%Z; bg := [255; 255; 255]%Z;
                  payload_ratio := 21.0; element_type := "p";
                  font_size := 16; font_weight := 400; user_scale := 0.5 |};
       expected_comfortable := Some true |};
    {| name := "Heading with Large Font";
       data := {| fg := [100; 100; 100]%Z; bg := [255; 255; 255]%Z;
                  payload_ratio := 4.2; element_type := "h1";
                  font_size := 32; font_weight := 700; user_scale := 0.5 |};
       expected_comfortable := None |} ]%string.

(** The value of [result.get('comfortable')], as far as [==] with a
    boolean tells values apart: [None] (also for a missing key), a
    boolean, a number, anything else. *)
Inductive pyval : Type :=
| PNone
| PBool (b : bool)
| PNum (x : R)
| POther.

(** [v == b] for a boolean [b]: a number equals [True] when it is 1 and
    [False] when it is 0. *)
Definition py_eq_bool (v : pyval) (b : bool) : bool :=
  match v with
  | PBool b' => Bool.eqb b' b
  | PNum x => if Req_dec_T x (if b then 1 else 0) then true else false
  | PNone | POther => false
  end.

(** What one pass through the [try] block meets: a timeout, another
    exception, or a response with its status code and, for the case
    that the body is read, the value of [comfortable] ([None] when
    reading the body raises). *)
Inductive reply : Type :=
| Timeout
| Failed
| Response (status_code : Z) (comfortable : option pyval).

(** One iteration of the loop on the counters ([passed], [failed]). *)
Definition check_case (tc : test_case) (r : reply) (pf : nat * nat) : nat * nat :=
  let (passed, failed) := pf in
  match r with
  | Response status_code body =>
      if (status_code =? 200)%Z then
        match body with
        | Some comfortable =>
            match expected_comfortable tc with
            | Some e =>
                if py_eq_bool comfortable e
                then (passed + 1, failed)%nat
                else (passed, failed + 1)%nat
            | None => (passed + 1, failed)%nat
            end
        | None => (passed, failed + 1)%nat
        end
      else (passed, failed + 1)%nat
  | Timeout => (passed, failed + 1)%nat
  | Failed => (passed, failed + 1)%nat
  end.

Section Predict.

(** The server: what the [i]-th request of the run, with its payload,
    comes back with. *)
Variable post : nat -> payload -> reply.

(** [for i, test_case in enumerate(cases, i): ...] *)
Fixpoint predict_loop (cases : list test_case) (i : nat) (pf : nat * nat) : nat * nat :=
  match cases with
  | [] => pf
  | tc :: rest => predict_loop rest (S i) (check_case tc (post i (data tc)) pf)
  end.


End Predict.

(** A test case passes on a reply: status 200, a body that can be read,
    and the expected value when there is one. *)
Definition case_passes (tc : test_case) (r : reply) : bool :=
  match r with
  | Response status_code (Some comfortable) =>
      (status_code =? 200)%Z &&
      match expected_comfortable tc with
      | Some e => py_eq_bool comfortable e
      | None => true
      end
  | _ => false
  end.


(** * Properties *)

Lemma luminance_unfold r g b :
  luminance r g b =
  0.2126 * gamma (r / 255) + 0.7152 * gamma (g / 255) + 0.0722 * gamma (b / 255).
Proof.
  unfold luminance; simpl.
  replace 255.0 with 255 by lra.
  reflexivity.
Qed.

(** The power branch of [gamma] is only reached with a positive base, so
    [float_pow] is used inside the domain where it is the real power. *)
Lemma gamma_base_positive v :
  ~ v <= 0.03928 -> 0 < (v + 0.055) / 1.055.
Proof.
  intros H. apply Rdiv_lt_0_compat; lra.
Qed.

(** ** Range of the gamma correction and of the luminance *)

Lemma float_pow_one y : float_pow 1 y = 1.
Proof.
  unfold float_pow, Rpower. rewrite ln_1, Rmult_0_r. apply exp_0.
Qed.

Lemma float_pow_positive x y : 0 < float_pow x y.
Proof. unfold float_pow, Rpower. apply exp_pos. Qed.

Lemma gamma_range v : 0 <= v <= 1 -> 0 <= gamma v <= 1.
Proof.
  intros [Hlo Hhi]. unfold gamma.
  destruct (Rle_dec v 0.03928) as [Hle | Hgt].
  - lra.
  - split.
    + left. apply float_pow_positive.
    + rewrite <- (float_pow_one 2.4). unfold float_pow.
      apply Rle_Rpower_l; [lra | ].
      split; [apply gamma_base_positive; exact Hgt | ].
      apply Rmult_le_reg_r with 1.055; [lra | ].
      unfold Rdiv. rewrite Rmult_assoc, Rinv_l by lra. lra.
Qed.

Lemma channel_ok_range v : channel_ok v = true -> 0 <= IZR v / 255 <= 1.
Proof.
  unfold channel_ok. intros H.
  apply andb_true_iff in H. destruct H as [H0 H1].
  apply Z.leb_le in H0. apply Z.leb_le in H1.
  apply IZR_le in H0. apply IZR_le in H1. lra.
Qed.

Lemma luminance_range r g b :
  0 <= r / 255 <= 1 -> 0 <= g / 255 <= 1 -> 0 <= b / 255 <= 1 ->
  0 <= luminance r g b <= 1.
Proof.
  intros Hr Hg Hb. rewrite luminance_unfold.
  apply gamma_range in Hr. apply gamma_range in Hg. apply gamma_range in Hb.
  lra.
Qed.

Lemma is_color_inv c :
  is_color c = true ->
  exists r g b, c = [r; g; b] /\
    channel_ok r = true /\ channel_ok g = true /\ channel_ok b = true.
Proof.
  destruct c as [| r [| g [| b [| x t]]]]; simpl; try discriminate.
  intros H. apply andb_true_iff in H. destruct H as [H Hb].
  apply andb_true_iff in H. destruct H as [Hr Hg].
  exists r, g, b. repeat split; assumption.
Qed.

Lemma luminance_color_range r g b :
  is_color [r; g; b] = true ->
  0 <= luminance (IZR r) (IZR g) (IZR b) <= 1.
Proof.
  intros H. apply is_color_inv in H.
  destruct H as (r' & g' & b' & E & Hr & Hg & Hb).
  injection E as -> -> ->.
  apply luminance_range; apply channel_ok_range; assumption.
Qed.

(** ** [max] and [min] as the script calls them *)

Lemma py_max_Rmax a b : py_max a b = Rmax a b.
Proof.
  unfold py_max, Rmax.
  destruct (Rlt_dec a b), (Rle_dec a b); lra.
Qed.

Lemma py_min_Rmin a b : py_min a b = Rmin a b.
Proof.
  unfold py_min, Rmin.
  destruct (Rlt_dec b a), (Rle_dec a b); lra.
Qed.

Lemma py_max_comm a b : py_max a b = py_max b a.
Proof. rewrite !py_max_Rmax. apply Rmax_comm. Qed.

Lemma py_min_comm a b : py_min a b = py_min b a.
Proof. rewrite !py_min_Rmin. apply Rmin_comm. Qed.

Lemma py_min_le_max a b : py_min a b <= py_max a b.
Proof.
  unfold py_min, py_max.
  destruct (Rlt_dec b a), (Rlt_dec a b); lra.
Qed.

Lemma py_min_bounds lo hi a b :
  lo <= a <= hi -> lo <= b <= hi -> lo <= py_min a b <= hi.
Proof. intros Ha Hb. unfold py_min. destruct (Rlt_dec b a); assumption. Qed.

Lemma py_max_bounds lo hi a b :
  lo <= a <= hi -> lo <= b <= hi -> lo <= py_max a b <= hi.
Proof. intros Ha Hb. unfold py_max. destruct (Rlt_dec a b); assumption. Qed.

(** ** The contrast ratio on three-channel inputs *)

Lemma contrast_ratio_unfold r1 g1 b1 r2 g2 b2 :
  contrast_ratio [r1; g1; b1] [r2; g2; b2] =
  float_div (py_max (luminance r1 g1 b1) (luminance r2 g2 b2) + 0.05)
            (py_min (luminance r1 g1 b1) (luminance r2 g2 b2) + 0.05).
Proof. reflexivity. Qed.

Lemma float_div_ok x y : y <> 0 -> float_div x y = Ok (x / y).
Proof.
  intros H. unfold float_div. destruct (Req_dec_T y 0); [contradiction | reflexivity].
Qed.

Lemma contrast_ratio_luminances r1 g1 b1 r2 g2 b2 :
  0 <= luminance r1 g1 b1 <= 1 -> 0 <= luminance r2 g2 b2 <= 1 ->
  exists q,
    contrast_ratio [r1; g1; b1] [r2; g2; b2] = Ok q /\ 1 <= q <= 21.
Proof.
  intros H1 H2. rewrite contrast_ratio_unfold.
  set (L1 := luminance r1 g1 b1) in *. set (L2 := luminance r2 g2 b2) in *.
  pose proof (py_min_le_max L1 L2) as Hmm.
  pose proof (py_min_bounds 0 1 L1 L2 H1 H2) as Hmin.
  pose proof (py_max_bounds 0 1 L1 L2 H1 H2) as Hmax.
  set (hi := py_max L1 L2) in *. set (lo := py_min L1 L2) in *.
  exists ((hi + 0.05) / (lo + 0.05)). split.
  - apply float_div_ok. lra.
  - split.
    + apply Rmult_le_reg_r with (lo + 0.05); [lra | ].
      unfold Rdiv. rewrite Rmult_assoc, Rinv_l by lra. lra.
    + apply Rmult_le_reg_r with (lo + 0.05); [lra | ].
      unfold Rdiv. rewrite Rmult_assoc, Rinv_l by lra. lra.
Qed.

(** ** Monotonicity of the gamma correction on integer channels *)

Lemma gamma_linear_monotone u v :
  u <= v -> v <= 0.03928 -> gamma u <= gamma v.
Proof.
  intros Huv Hv. unfold gamma.
  destruct (Rle_dec u 0.03928); destruct (Rle_dec v 0.03928); lra.
Qed.

Lemma gamma_power_monotone u v :
  ~ u <= 0.03928 -> u <= v -> gamma u <= gamma v.
Proof.
  intros Hu Huv. unfold gamma.
  destruct (Rle_dec u 0.03928); destruct (Rle_dec v 0.03928); try lra.
  unfold float_pow. apply Rle_Rpower_l; [lra | ].
  split; [apply gamma_base_positive; assumption | ].
  unfold Rdiv. apply Rmult_le_compat_r; lra.
Qed.

(** The fifth power of [x ** 2.4] is the twelfth power of [x]. *)
Lemma float_pow_fifth x : 0 < x -> (float_pow x 2.4) ^ 5 = x ^ 12.
Proof.
  intros Hx. unfold float_pow.
  rewrite <- (Rpower_pow 5) by apply exp_pos.
  rewrite Rpower_mult.
  replace (2.4 * INR 5) with (INR 12) by (simpl; lra).
  apply Rpower_pow. exact Hx.
Qed.

(** The highest channel of the linear branch, 10, stays below the lowest
    channel of the power branch, 11. *)
Lemma gamma_crossing : gamma (10 / 255) <= gamma (11 / 255).
Proof.
  unfold gamma.
  destruct (Rle_dec (10 / 255) 0.03928) as [_ | H]; [ | exfalso; lra].
  destruct (Rle_dec (11 / 255) 0.03928) as [H | _]; [exfalso; lra | ].
  set (x := (11 / 255 + 0.055) / 1.055).
  assert (Hx : 0.093 <= x) by (unfold x; lra).
  set (y := float_pow x 2.4).
  assert (Hy : 0 < y) by apply float_pow_positive.
  assert (H5 : y ^ 5 = x ^ 12) by (apply float_pow_fifth; lra).
  destruct (Rle_lt_dec (10 / 255 / 12.92) y) as [Hle | Hlt]; [exact Hle | exfalso].
  assert (Hc : 10 / 255 / 12.92 <= 0.00304) by lra.
  assert (Hy5 : y ^ 5 <= 0.00304 ^ 5) by (apply pow_incr; lra).
  assert (Hx12 : 0.093 ^ 12 <= x ^ 12) by (apply pow_incr; lra).
  assert (Hnum : 0.00304 ^ 5 < 0.093 ^ 12) by lra.
  lra.
Qed.

Lemma gamma_channel_monotone (j k : Z) :
  (j <= k)%Z -> gamma (IZR j / 255) <= gamma (IZR k / 255).
Proof.
  intros Hjk. pose proof (IZR_le _ _ Hjk) as HR.
  destruct (Rle_dec (IZR k / 255) 0.03928) as [Hk | Hk].
  - apply gamma_linear_monotone; lra.
  - destruct (Rle_dec (IZR j / 255) 0.03928) as [Hj | Hj].
    + assert (Hj10 : (j <= 10)%Z).
      { assert (H : (j < 11)%Z) by (apply lt_IZR; lra). lia. }
      assert (Hk11 : (11 <= k)%Z).
      { destruct (Z_le_gt_dec k 10) as [H | H]; [ | lia].
        apply IZR_le in H. exfalso; lra. }
      apply IZR_le in Hj10. apply IZR_le in Hk11.
      apply Rle_trans with (gamma (10 / 255)).
      { apply gamma_linear_monotone; lra. }
      apply Rle_trans with (gamma (11 / 255)).
      { apply gamma_crossing. }
      apply gamma_power_monotone; lra.
    + apply gamma_power_monotone; [exact Hj | lra].
Qed.

Lemma luminance_channels_monotone (r r' g g' b b' : Z) :
  (r <= r')%Z -> (g <= g')%Z -> (b <= b')%Z ->
  luminance (IZR r) (IZR g) (IZR b) <= luminance (IZR r') (IZR g') (IZR b').
Proof.
  intros Hr Hg Hb. rewrite !luminance_unfold.
  apply gamma_channel_monotone in Hr.
  apply gamma_channel_monotone in Hg.
  apply gamma_channel_monotone in Hb.
  lra.
Qed.

(** ** The two end points *)

Lemma gamma_zero : gamma 0 = 0.
Proof.
  unfold gamma. destruct (Rle_dec 0 0.03928); [lra | exfalso; lra].
Qed.

Lemma gamma_one : gamma 1 = 1.
Proof.
  unfold gamma. destruct (Rle_dec 1 0.03928); [exfalso; lra | ].
  replace ((1 + 0.055) / 1.055) with 1 by lra.
  apply float_pow_one.
Qed.

Lemma luminance_black : luminance 0 0 0 = 0.
Proof.
  rewrite luminance_unfold.
  replace (0 / 255) with 0 by lra. rewrite gamma_zero. lra.
Qed.

Lemma luminance_white : luminance 255 255 255 = 1.
Proof.
  rewrite luminance_unfold.
  replace (255 / 255) with 1 by lra. rewrite gamma_one. lra.
Qed.

(** ** Outcomes of [contrast_ratio] on every input *)

Lemma contrast_ratio_arity_fg fg bg :
  List.length fg <> 3%nat -> contrast_ratio fg bg = Raise TypeError.
Proof.
  destruct fg as [| r [| g [| b [| x t]]]]; simpl; intros H;
    try reflexivity; contradiction.
Qed.

Lemma contrast_ratio_arity_bg fg bg :
  List.length bg <> 3%nat -> contrast_ratio fg bg = Raise TypeError.
Proof.
  intros H.
  destruct fg as [| r [| g [| b [| x t]]]]; try reflexivity.
  destruct bg as [| r' [| g' [| b' [| x' t']]]]; simpl in *;
    try reflexivity; contradiction.
Qed.

Lemma contrast_ratio_swap fg bg : contrast_ratio fg bg = contrast_ratio bg fg.
Proof.
  destruct (Nat.eq_dec (List.length fg) 3) as [Hf | Hf].
  - destruct (Nat.eq_dec (List.length bg) 3) as [Hb | Hb].
    + destruct fg as [| r [| g [| b [| x t]]]]; try discriminate.
      destruct bg as [| r' [| g' [| b' [| x' t']]]]; try discriminate.
      rewrite !contrast_ratio_unfold.
      rewrite py_max_comm, py_min_comm. reflexivity.
    + rewrite contrast_ratio_arity_bg by assumption.
      rewrite contrast_ratio_arity_fg by assumption. reflexivity.
  - rewrite contrast_ratio_arity_fg by assumption.
    rewrite contrast_ratio_arity_bg by assumption. reflexivity.
Qed.

Lemma py_max_same a : py_max a a = a.
Proof. unfold py_max. destruct (Rlt_dec a a); reflexivity. Qed.

Lemma py_min_same a : py_min a a = a.
Proof. unfold py_min. destruct (Rlt_dec a a); reflexivity. Qed.

Lemma contrast_ratio_same r g b :
  luminance r g b + 0.05 <> 0 ->
  contrast_ratio [r; g; b] [r; g; b] = Ok 1.
Proof.
  intros H. rewrite contrast_ratio_unfold, py_max_same, py_min_same.
  rewrite float_div_ok by exact H.
  f_equal. unfold Rdiv. apply Rinv_r. exact H.
Qed.

Lemma contrast_ratio_colors fg bg :
  is_color fg = true -> is_color bg = true ->
  exists q, contrast_ratio (floats fg) (floats bg) = Ok q /\ 1 <= q <= 21.
Proof.
  intros Hf Hb.
  destruct (is_color_inv _ Hf) as (r1 & g1 & b1 & -> & _).
  destruct (is_color_inv _ Hb) as (r2 & g2 & b2 & -> & _).
  apply contrast_ratio_luminances; apply luminance_color_range; assumption.
Qed.

Lemma label_cases ratio : (label ratio = 0 \/ label ratio = 1)%Z.
Proof. unfold label. destruct (Rge_dec ratio 4.5); [right | left]; reflexivity. Qed.

(** ** The generation loop *)

Section GenerateFacts.

Variable gen : Type.
Variable randint : Z -> Z -> gen -> Z * gen.

(** The contract of [random.randint(a, b)]: an integer of [a, b]. *)
Hypothesis randint_range :
  forall (a b : Z) (s : gen), (a <= b)%Z -> (a <= fst (randint a b s) <= b)%Z.

Lemma randint_channel s : channel_ok (fst (randint 0 255 s)) = true.
Proof.
  assert (H : (0 <= fst (randint 0 255 s) <= 255)%Z)
    by (apply randint_range; lia).
  unfold channel_ok. apply andb_true_iff.
  split; apply Z.leb_le; lia.
Qed.

Lemma draw_three s :
  exists r g b,
    fst (draw_channels randint 3 s) = [r; g; b] /\ is_color [r; g; b] = true.
Proof.
  simpl.
  pose proof (randint_channel s) as H1.
  destruct (randint 0 255 s) as [r s1].
  pose proof (randint_channel s1) as H2.
  destruct (randint 0 255 s1) as [g s2].
  pose proof (randint_channel s2) as H3.
  destruct (randint 0 255 s2) as [b s3].
  simpl in *. exists r, g, b. split; [reflexivity | ].
  rewrite H1, H2, H3. reflexivity.
Qed.

(** One iteration never raises: it appends one sound row, and the
    generator it leaves is the one left by its six draws. *)
Lemma loop_body_appends rows s :
  exists rw,
    loop_body randint (rows, s) =
      Ok (rows ++ [rw],
          snd (draw_channels randint 3 (snd (draw_channels randint 3 s)))) /\
    map fst rw = columns /\ row_sound rw.
Proof.
  unfold loop_body.
  destruct (draw_three s) as (r1 & g1 & b1 & E1 & C1).
  destruct (draw_channels randint 3 s) as [fg s1].
  cbn [fst snd] in *. subst fg.
  destruct (draw_three s1) as (r2 & g2 & b2 & E2 & C2).
  destruct (draw_channels randint 3 s1) as [bg s2].
  cbn [fst snd] in *. subst bg.
  destruct (contrast_ratio_colors _ _ C1 C2) as (q & Hq & Hrange).
  rewrite Hq. cbn [bind item nth_error].
  eexists. split; [reflexivity | ]. split; [reflexivity | ].
  exists [r1; g1; b1], [r2; g2; b2], q, (label q).
  repeat split; try assumption; try reflexivity; try apply Hrange.
  apply label_cases.
Qed.

Lemma for_range_appends n :
  forall (rows : list row) (s : gen),
    Forall (fun rw => map fst rw = columns /\ row_sound rw) rows ->
    exists rows' s',
      for_range randint n (rows, s) = Ok (rows', s') /\
      List.length rows' = (List.length rows + n)%nat /\
      Forall (fun rw => map fst rw = columns /\ row_sound rw) rows'.
Proof.
  induction n as [| n IH]; intros rows s Hrows.
  - exists rows, s. cbn [for_range]. rewrite Nat.add_0_r. auto.
  - destruct (loop_body_appends rows s) as (rw & Hstep & Hcols & Hsound).
    destruct (IH (rows ++ [rw])
                 (snd (draw_channels randint 3 (snd (draw_channels randint 3 s)))))
      as (rows' & s' & Hrun & Hlen & Hall).
    + apply Forall_app. split; [exact Hrows | ].
      constructor; [split; assumption | constructor].
    + exists rows', s'. cbn [for_range]. rewrite Hstep. cbn [bind].
      split; [exact Hrun | ]. split; [ | exact Hall].
      rewrite Hlen, length_app. simpl. lia.
Qed.

End GenerateFacts.

Lemma lcg_randint_range (a b s : Z) :
  (a <= b)%Z -> (a <= fst (lcg_randint a b s) <= b)%Z.
Proof.
  intros H. unfold lcg_randint. simpl.
  pose proof (Z.mod_pos_bound s (b - a + 1)) as Hm. lia.
Qed.

(** Just above the threshold the power branch starts below the value the
    linear branch ends with: on real-valued channels [gamma] is not
    monotone, the integer grid of a Color steps over the gap. *)
Remark gamma_dips_after_threshold : gamma 0.039281 < gamma 0.03928.
Proof.
  unfold gamma.
  destruct (Rle_dec 0.039281 0.03928) as [H | _]; [exfalso; lra | ].
  destruct (Rle_dec 0.03928 0.03928) as [_ | H]; [ | exfalso; lra].
  set (x := (0.039281 + 0.055) / 1.055).
  assert (Hx : 0 < x <= 0.0893659) by (unfold x; lra).
  set (y := float_pow x 2.4).
  assert (Hy : 0 < y) by apply float_pow_positive.
  assert (H5 : y ^ 5 = x ^ 12) by (apply float_pow_fifth; lra).
  destruct (Rlt_le_dec y (0.03928 / 12.92)) as [Hlt | Hle]; [exact Hlt | exfalso].
  assert (Hc : 0.0030402 <= y) by lra.
  assert (Hy5 : 0.0030402 ^ 5 <= y ^ 5) by (apply pow_incr; lra).
  assert (Hx12 : x ^ 12 <= 0.0893659 ^ 12) by (apply pow_incr; lra).
  assert (Hnum : 0.0893659 ^ 12 < 0.0030402 ^ 5) by lra.
  lra.
Qed.

(** * The claims *)

(** C1: for every channel triple, [luminance r g b] is the WCAG 2.1
    reference value: each channel divided by 255, linearised as
    [v / 12.92] when [v <= 0.03928] and as [((v + 0.055) / 1.055) ^ 2.4]
    otherwise, then summed with the weights 0.2126, 0.7152 and 0.0722. *)
Theorem luminance_is_wcag (r g b : R) :
  luminance r g b = wcag_relative_luminance r g b.
Proof.
  rewrite luminance_unfold. reflexivity.
Qed.

(** C2: the label is 1 exactly when the ratio is at least 4.5; the
    boundary belongs to label 1: 4.5 is labelled 1 and 4.499999 is
    labelled 0. *)
Theorem label_threshold :
  (forall ratio : R, label ratio = 1%Z <-> 4.5 <= ratio) /\
  (forall ratio : R, label ratio = 0%Z <-> ratio < 4.5) /\
  label 4.5 = 1%Z /\ label 4.499999 = 0%Z.
Proof.
  assert (H1 : forall ratio : R, label ratio = 1%Z <-> 4.5 <= ratio).
  { intros ratio. unfold label.
    destruct (Rge_dec ratio 4.5) as [H | H]; split; intros H'.
    - lra.
    - reflexivity.
    - discriminate.
    - exfalso; lra. }
  assert (H0 : forall ratio : R, label ratio = 0%Z <-> ratio < 4.5).
  { intros ratio. unfold label.
    destruct (Rge_dec ratio 4.5) as [H | H]; split; intros H'.
    - discriminate.
    - exfalso; lra.
    - lra.
    - reflexivity. }
  repeat split; try apply H1; try apply H0; lra.
Qed.

Lemma label_threshold_witness :
  4.5 <= 7.25 /\ label 7.25 = 1%Z.
Proof.
  assert (H : 4.5 <= 7.25) by lra.
  split; [exact H | ].
  apply (proj2 (proj1 label_threshold 7.25) H).
Defined.

(** C3: for valid Colors [fg] and [bg], [contrast_ratio fg bg] returns a
    ratio that is at least 1 and at most 21. *)
Theorem contrast_ratio_range (fg bg : color) :
  is_color fg = true -> is_color bg = true ->
  exists q, contrast_ratio (floats fg) (floats bg) = Ok q /\ 1 <= q <= 21.
Proof. apply contrast_ratio_colors. Qed.

Lemma contrast_ratio_range_witness :
  is_color [12; 200; 7]%Z = true /\ is_color [255; 0; 129]%Z = true /\
  exists q,
    contrast_ratio (floats [12; 200; 7]%Z) (floats [255; 0; 129]%Z) = Ok q /\
    1 <= q <= 21.
Proof.
  split; [reflexivity | ]. split; [reflexivity | ].
  apply (contrast_ratio_range [12; 200; 7]%Z [255; 0; 129]%Z); reflexivity.
Defined.

(** C4: [contrast_ratio fg bg] and [contrast_ratio bg fg] have the same
    outcome for every pair of inputs: the operation does not depend on
    which colour is the foreground. *)
Theorem contrast_ratio_symmetric (fg bg : list R) :
  contrast_ratio fg bg = contrast_ratio bg fg.
Proof. apply contrast_ratio_swap. Qed.

(** C5: with a [randint] that honours its range, the loop runs to its end
    and leaves exactly 5000 rows; each row has the eight columns fg_r,
    fg_g, fg_b, bg_r, bg_g, bg_b, contrast_ratio, label, holds two valid
    colours, the contrast ratio of these two colours, which lies in
    [1, 21], and the label of that ratio, which is 0 or 1. *)
Theorem generate_rows (gen : Type) (randint : Z -> Z -> gen -> Z * gen) :
  (forall (a b : Z) (s : gen),
      (a <= b)%Z -> (a <= fst (randint a b s) <= b)%Z) ->
  forall s : gen,
  exists rows s',
    generate randint s = Ok (rows, s') /\
    Z.of_nat (List.length rows) = 5000%Z /\
    Forall (fun rw => map fst rw = columns /\ row_sound rw) rows.
Proof.
  intros Hrange s. unfold generate.
  destruct (for_range_appends gen randint Hrange (Z.to_nat 5000) [] s)
    as (rows & s' & Hrun & Hlen & Hall).
  - constructor.
  - exists rows, s'. split; [exact Hrun | ]. split; [ | exact Hall].
    rewrite Hlen. simpl List.length. rewrite Nat.add_0_l.
    apply Z2Nat.id. lia.
Qed.

Lemma generate_rows_witness :
  exists rows s',
    generate lcg_randint 42%Z = Ok (rows, s') /\
    Z.of_nat (List.length rows) = 5000%Z /\
    Forall (fun rw => map fst rw = columns /\ row_sound rw) rows.
Proof.
  apply (generate_rows Z lcg_randint lcg_randint_range 42%Z).
Defined.

(** C6: the luminance of a valid Color lies in [0, 1]; black has
    luminance 0 and white has luminance 1, both exactly and so within
    the tolerance 1e-6. *)
Theorem luminance_unit_interval :
  (forall r g b : Z,
      is_color [r; g; b] = true ->
      0 <= luminance (IZR r) (IZR g) (IZR b) <= 1) /\
  luminance 0 0 0 = 0 /\ luminance 255 255 255 = 1 /\
  Rabs (luminance 0 0 0 - 0) <= 1e-6 /\
  Rabs (luminance 255 255 255 - 1) <= 1e-6.
Proof.
  split; [intros r g b; apply luminance_color_range | ].
  rewrite luminance_black, luminance_white.
  replace (0 - 0) with 0 by lra. replace (1 - 1) with 0 by lra.
  rewrite Rabs_R0. repeat split; lra.
Qed.

Lemma luminance_unit_interval_witness :
  is_color [64; 128; 255]%Z = true /\
  0 <= luminance 64 128 255 <= 1.
Proof.
  split; [reflexivity | ].
  apply (proj1 luminance_unit_interval 64%Z 128%Z 255%Z). reflexivity.
Defined.

(** C7: a valid Color paired with itself has contrast ratio 1, the
    minimum of the range. *)
Theorem contrast_ratio_self (fg : color) :
  is_color fg = true ->
  contrast_ratio (floats fg) (floats fg) = Ok 1.
Proof.
  intros H. destruct (is_color_inv _ H) as (r & g & b & -> & _).
  apply contrast_ratio_same.
  pose proof (luminance_color_range r g b H). lra.
Qed.

Lemma contrast_ratio_self_witness :
  is_color [17; 34; 51]%Z = true /\
  contrast_ratio (floats [17; 34; 51]%Z) (floats [17; 34; 51]%Z) = Ok 1.
Proof.
  split; [reflexivity | ].
  apply (contrast_ratio_self [17; 34; 51]%Z). reflexivity.
Defined.

(** C8: white on black has contrast ratio 21, the maximum of the range,
    exactly and so within the tolerance 1e-6, because black has
    luminance 0 and white has luminance 1; the reversed pair gives the
    same ratio. *)
Theorem contrast_ratio_white_black :
  luminance 0 0 0 = 0 /\ luminance 255 255 255 = 1 /\
  contrast_ratio (floats white) (floats black) = Ok 21 /\
  contrast_ratio (floats black) (floats white) = Ok 21 /\
  exists q,
    contrast_ratio (floats white) (floats black) = Ok q /\
    Rabs (q - 21) <= 1e-6.
Proof.
  assert (H : contrast_ratio (floats white) (floats black) = Ok 21).
  { unfold floats, white, black. cbn [map].
    rewrite contrast_ratio_unfold, luminance_black, luminance_white.
    unfold py_max, py_min.
    destruct (Rlt_dec 1 0) as [Hlt | _]; [exfalso; lra | ].
    destruct (Rlt_dec 0 1) as [_ | Hge]; [ | exfalso; lra].
    rewrite float_div_ok by lra.
    f_equal. lra. }
  split; [apply luminance_black | ]. split; [apply luminance_white | ].
  split; [exact H | ].
  split; [rewrite contrast_ratio_swap; exact H | ].
  exists 21. split; [exact H | ].
  replace (21 - 21) with 0 by lra. rewrite Rabs_R0. lra.
Qed.

(** C10: luminance is monotone in each channel: of two valid Colors that
    agree on two channels, the one with the larger remaining channel has
    the larger or equal luminance. *)
Theorem luminance_monotone (r g b r' g' b' : Z) :
  is_color [r; g; b] = true -> is_color [r'; g'; b'] = true ->
  ((r <= r')%Z /\ g = g' /\ b = b') \/
  (r = r' /\ (g <= g')%Z /\ b = b') \/
  (r = r' /\ g = g' /\ (b <= b')%Z) ->
  luminance (IZR r) (IZR g) (IZR b) <= luminance (IZR r') (IZR g') (IZR b').
Proof.
  intros _ _ H. apply luminance_channels_monotone; lia.
Qed.

Lemma luminance_monotone_witness :
  luminance 10 40 200 <= luminance 11 40 200.
Proof.
  apply (luminance_monotone 10 40 200 11 40 200);
    [reflexivity | reflexivity | left; repeat split; lia].
Defined.

(** * Further properties of the luminance and the contrast ratio *)

Lemma gamma_nonnegative v : 0 <= v -> 0 <= gamma v.
Proof.
  intros H. unfold gamma. destruct (Rle_dec v 0.03928).
  - lra.
  - left. apply float_pow_positive.
Qed.

Lemma gamma_positive v : 0 < v -> 0 < gamma v.
Proof.
  intros H. unfold gamma. destruct (Rle_dec v 0.03928).
  - lra.
  - apply float_pow_positive.
Qed.

Lemma gamma_below_one v : 0 <= v < 1 -> gamma v < 1.
Proof.
  intros [H0 H1]. unfold gamma. destruct (Rle_dec v 0.03928) as [Hle | Hgt].
  - lra.
  - rewrite <- (float_pow_one 2.4). unfold float_pow.
    apply Rlt_Rpower_l; [lra | ].
    split; [apply gamma_base_positive; exact Hgt | ].
    apply Rmult_lt_reg_r with 1.055; [lra | ].
    unfold Rdiv. rewrite Rmult_assoc, Rinv_l by lra. lra.
Qed.

Lemma luminance_nonnegative r g b :
  0 <= r -> 0 <= g -> 0 <= b -> 0 <= luminance r g b.
Proof.
  intros Hr Hg Hb. rewrite luminance_unfold.
  assert (H1 : 0 <= gamma (r / 255)) by (apply gamma_nonnegative; lra).
  assert (H2 : 0 <= gamma (g / 255)) by (apply gamma_nonnegative; lra).
  assert (H3 : 0 <= gamma (b / 255)) by (apply gamma_nonnegative; lra).
  lra.
Qed.

Lemma py_max_left a b : b <= a -> py_max a b = a.
Proof. intros H. unfold py_max. destruct (Rlt_dec a b); [lra | reflexivity]. Qed.

Lemma py_min_right a b : b <= a -> py_min a b = b.
Proof. intros H. unfold py_min. destruct (Rlt_dec b a); [reflexivity | lra]. Qed.

Lemma ratio_ge_one hi lo : 0 < lo + 0.05 -> lo <= hi -> 1 <= (hi + 0.05) / (lo + 0.05).
Proof.
  intros Hlo Hle.
  apply Rmult_le_reg_r with (lo + 0.05); [lra | ].
  unfold Rdiv. rewrite Rmult_assoc, Rinv_l by lra. lra.
Qed.

Lemma ratio_equation hi lo q :
  0 < lo + 0.05 -> ((hi + 0.05) / (lo + 0.05) = q <-> hi + 0.05 = q * (lo + 0.05)).
Proof.
  intros Hlo. split; intros H.
  - rewrite <- H. unfold Rdiv. rewrite Rmult_assoc, Rinv_l by lra. lra.
  - rewrite H. unfold Rdiv. rewrite Rmult_assoc, Rinv_r by lra. lra.
Qed.

Lemma contrast_ratio_value r1 g1 b1 r2 g2 b2 :
  0 <= luminance r1 g1 b1 -> 0 <= luminance r2 g2 b2 ->
  contrast_ratio [r1; g1; b1] [r2; g2; b2] =
  Ok ((py_max (luminance r1 g1 b1) (luminance r2 g2 b2) + 0.05) /
      (py_min (luminance r1 g1 b1) (luminance r2 g2 b2) + 0.05)).
Proof.
  intros H1 H2. rewrite contrast_ratio_unfold. apply float_div_ok.
  unfold py_min. destruct (Rlt_dec _ _); lra.
Qed.

Lemma Ok_inj {A : Type} (x y : A) : Ok x = Ok y -> x = y.
Proof. intros H. injection H as H. exact H. Qed.

Lemma py_min_nonnegative a b : 0 <= a -> 0 <= b -> 0 <= py_min a b.
Proof. intros Ha Hb. unfold py_min. destruct (Rlt_dec b a); assumption. Qed.

Lemma channels_ok_color (c : color) :
  Forall (fun v => channel_ok v = true) c -> List.length c = 3%nat ->
  is_color c = true.
Proof.
  intros Hall Hlen.
  destruct c as [| r [| g [| b [| x t]]]]; try discriminate Hlen.
  inversion Hall as [| ? ? Hr Hall1]; subst.
  inversion Hall1 as [| ? ? Hg Hall2]; subst.
  inversion Hall2 as [| ? ? Hb _]; subst.
  cbn [is_color]. rewrite Hr, Hg, Hb. reflexivity.
Qed.

(** X1: on lists of channel values in [0, 255], of any length,
    [contrast_ratio] raises [TypeError] exactly when one of its two
    arguments does not have exactly three channels. *)
Theorem contrast_ratio_type_error (fg bg : color) :
  Forall (fun v => channel_ok v = true) fg ->
  Forall (fun v => channel_ok v = true) bg ->
  (contrast_ratio (floats fg) (floats bg) = Raise TypeError <->
   List.length fg <> 3%nat \/ List.length bg <> 3%nat).
Proof.
  intros Hfg Hbg. split.
  - intros H.
    destruct (Nat.eq_dec (List.length fg) 3) as [Hf | Hf]; [ | left; exact Hf].
    destruct (Nat.eq_dec (List.length bg) 3) as [Hb | Hb]; [ | right; exact Hb].
    exfalso.
    destruct (contrast_ratio_colors fg bg
                (channels_ok_color fg Hfg Hf) (channels_ok_color bg Hbg Hb))
      as (q & Hq & _).
    rewrite Hq in H. discriminate H.
  - intros [H | H].
    + apply contrast_ratio_arity_fg. unfold floats. rewrite length_map. exact H.
    + apply contrast_ratio_arity_bg. unfold floats. rewrite length_map. exact H.
Qed.

Lemma contrast_ratio_type_error_witness :
  contrast_ratio (floats [1; 2]%Z) (floats [0; 0; 0]%Z) = Raise TypeError.
Proof.
  apply (proj2 (contrast_ratio_type_error [1; 2]%Z [0; 0; 0]%Z
                  ltac:(repeat constructor) ltac:(repeat constructor))).
  left. cbn [List.length]. discriminate.
Defined.

(** X2: on channels between 0 and 1e100, so also far beyond 255 but
    with every power inside the range of a double, the call never
    divides by zero: it returns a ratio, and the ratio is at least 1. *)
Theorem contrast_ratio_nonnegative_channels (r1 g1 b1 r2 g2 b2 : R) :
  0 <= r1 <= 1e100 -> 0 <= g1 <= 1e100 -> 0 <= b1 <= 1e100 ->
  0 <= r2 <= 1e100 -> 0 <= g2 <= 1e100 -> 0 <= b2 <= 1e100 ->
  exists q, contrast_ratio [r1; g1; b1] [r2; g2; b2] = Ok q /\ 1 <= q.
Proof.
  intros [Hr1 _] [Hg1 _] [Hb1 _] [Hr2 _] [Hg2 _] [Hb2 _].
  pose proof (luminance_nonnegative _ _ _ Hr1 Hg1 Hb1) as H1.
  pose proof (luminance_nonnegative _ _ _ Hr2 Hg2 Hb2) as H2.
  eexists. split; [apply contrast_ratio_value; assumption | ].
  apply ratio_ge_one.
  - pose proof (py_min_nonnegative _ _ H1 H2). lra.
  - apply py_min_le_max.
Qed.

Lemma contrast_ratio_nonnegative_channels_witness :
  exists q, contrast_ratio [300; 300; 300] [0; 0.5; 1000] = Ok q /\ 1 <= q.
Proof.
  apply (contrast_ratio_nonnegative_channels 300 300 300 0 0.5 1000); lra.
Defined.

Lemma luminance_zero_only_black (r g b : Z) :
  is_color [r; g; b] = true ->
  luminance (IZR r) (IZR g) (IZR b) = 0 -> [r; g; b] = black.
Proof.
  intros Hc H. destruct (is_color_inv _ Hc) as (r' & g' & b' & E & Hr & Hg & Hb).
  injection E as <- <- <-.
  apply channel_ok_range in Hr. apply channel_ok_range in Hg.
  apply channel_ok_range in Hb.
  rewrite luminance_unfold in H.
  assert (Z0 : forall k : Z, 0 <= IZR k / 255 -> gamma (IZR k / 255) <= 0 -> k = 0%Z).
  { intros k Hk Hg0. apply eq_IZR.
    destruct (Rle_lt_dec (IZR k / 255) 0) as [Hle | Hlt]; [lra | ].
    apply gamma_positive in Hlt. lra. }
  pose proof (gamma_nonnegative _ (proj1 Hr)) as Gr.
  pose proof (gamma_nonnegative _ (proj1 Hg)) as Gg.
  pose proof (gamma_nonnegative _ (proj1 Hb)) as Gb.
  unfold black. f_equal; [ | f_equal; [ | f_equal]]; apply Z0; lra.
Qed.

Lemma luminance_one_only_white (r g b : Z) :
  is_color [r; g; b] = true ->
  luminance (IZR r) (IZR g) (IZR b) = 1 -> [r; g; b] = white.
Proof.
  intros Hc H. destruct (is_color_inv _ Hc) as (r' & g' & b' & E & Hr & Hg & Hb).
  injection E as <- <- <-.
  apply channel_ok_range in Hr. apply channel_ok_range in Hg.
  apply channel_ok_range in Hb.
  rewrite luminance_unfold in H.
  assert (Z1 : forall k : Z,
             0 <= IZR k / 255 <= 1 -> 1 <= gamma (IZR k / 255) -> k = 255%Z).
  { intros k Hk Hg1. apply eq_IZR.
    destruct (Rlt_le_dec (IZR k / 255) 1) as [Hlt | Hle]; [ | lra].
    assert (Hb1 : gamma (IZR k / 255) < 1) by (apply gamma_below_one; lra).
    lra. }
  pose proof (gamma_range _ Hr) as Gr.
  pose proof (gamma_range _ Hg) as Gg.
  pose proof (gamma_range _ Hb) as Gb.
  unfold white. f_equal; [ | f_equal; [ | f_equal]]; apply Z1; try assumption; lra.
Qed.

(** X4: among valid Colors, the maximal ratio 21 is reached by white
    against black only, in either order. *)
Theorem contrast_ratio_maximum_iff (fg bg : color) :
  is_color fg = true -> is_color bg = true ->
  (contrast_ratio (floats fg) (floats bg) = Ok 21 <->
   (fg = white /\ bg = black) \/ (fg = black /\ bg = white)).
Proof.
  intros Hf Hb.
  assert (Hwb : contrast_ratio (floats white) (floats black) = Ok 21).
  { unfold floats, white, black. cbn [map].
    rewrite contrast_ratio_value by (rewrite ?luminance_black, ?luminance_white; lra).
    rewrite luminance_black, luminance_white.
    rewrite py_max_left, py_min_right by lra. f_equal. lra. }
  split.
  - destruct (is_color_inv _ Hf) as (r1 & g1 & b1 & -> & _).
    destruct (is_color_inv _ Hb) as (r2 & g2 & b2 & -> & _).
    pose proof (luminance_color_range _ _ _ Hf) as H1.
    pose proof (luminance_color_range _ _ _ Hb) as H2.
    unfold floats. cbn [map].
    rewrite contrast_ratio_value by lra.
    intros H. apply Ok_inj in H.
    pose proof (luminance_zero_only_black _ _ _ Hf) as Z1.
    pose proof (luminance_zero_only_black _ _ _ Hb) as Z2.
    pose proof (luminance_one_only_white _ _ _ Hf) as W1.
    pose proof (luminance_one_only_white _ _ _ Hb) as W2.
    set (L1 := luminance (IZR r1) (IZR g1) (IZR b1)) in *.
    set (L2 := luminance (IZR r2) (IZR g2) (IZR b2)) in *.
    apply ratio_equation in H;
      [ | pose proof (py_min_nonnegative L1 L2 (proj1 H1) (proj1 H2)); lra].
    revert H. unfold py_max, py_min.
    destruct (Rlt_dec L1 L2); destruct (Rlt_dec L2 L1); intros H; try lra.
    + right. split; [apply Z1 | apply W2]; lra.
    + left. split; [apply W1 | apply Z2]; lra.
  - intros [[-> ->] | [-> ->]].
    + exact Hwb.
    + rewrite contrast_ratio_swap. exact Hwb.
Qed.

Lemma contrast_ratio_maximum_iff_witness :
  contrast_ratio (floats black) (floats white) = Ok 21.
Proof.
  apply (proj2 (contrast_ratio_maximum_iff black white eq_refl eq_refl)).
  right. split; reflexivity.
Defined.

(** ** Strict monotonicity on integer channels *)

Lemma gamma_linear_strict u v :
  u < v -> v <= 0.03928 -> gamma u < gamma v.
Proof.
  intros Huv Hv. unfold gamma.
  destruct (Rle_dec u 0.03928); destruct (Rle_dec v 0.03928); lra.
Qed.

Lemma gamma_power_strict u v :
  ~ u <= 0.03928 -> u < v -> gamma u < gamma v.
Proof.
  intros Hu Huv. unfold gamma.
  destruct (Rle_dec u 0.03928); destruct (Rle_dec v 0.03928); try lra.
  unfold float_pow. apply Rlt_Rpower_l; [lra | ].
  split; [apply gamma_base_positive; assumption | ].
  unfold Rdiv. apply Rmult_lt_compat_r; lra.
Qed.

Lemma gamma_crossing_strict : gamma (10 / 255) < gamma (11 / 255).
Proof.
  unfold gamma.
  destruct (Rle_dec (10 / 255) 0.03928) as [_ | H]; [ | exfalso; lra].
  destruct (Rle_dec (11 / 255) 0.03928) as [H | _]; [exfalso; lra | ].
  set (x := (11 / 255 + 0.055) / 1.055).
  assert (Hx : 0.093 <= x) by (unfold x; lra).
  set (y := float_pow x 2.4).
  assert (Hy : 0 < y) by apply float_pow_positive.
  assert (H5 : y ^ 5 = x ^ 12) by (apply float_pow_fifth; lra).
  destruct (Rlt_le_dec (10 / 255 / 12.92) y) as [Hlt | Hle]; [exact Hlt | exfalso].
  assert (Hc : 10 / 255 / 12.92 <= 0.00304) by lra.
  assert (Hy5 : y ^ 5 <= 0.00304 ^ 5) by (apply pow_incr; lra).
  assert (Hx12 : 0.093 ^ 12 <= x ^ 12) by (apply pow_incr; lra).
  assert (Hnum : 0.00304 ^ 5 < 0.093 ^ 12) by lra.
  lra.
Qed.

Lemma gamma_channel_strict (j k : Z) :
  (j < k)%Z -> gamma (IZR j / 255) < gamma (IZR k / 255).
Proof.
  intros Hjk. pose proof (IZR_lt _ _ Hjk) as HR.
  destruct (Rle_dec (IZR k / 255) 0.03928) as [Hk | Hk].
  - apply gamma_linear_strict; lra.
  - destruct (Rle_dec (IZR j / 255) 0.03928) as [Hj | Hj].
    + assert (Hj10 : (j <= 10)%Z).
      { assert (H : (j < 11)%Z) by (apply lt_IZR; lra). lia. }
      assert (Hk11 : (11 <= k)%Z).
      { destruct (Z_le_gt_dec k 10) as [H | H]; [ | lia].
        apply IZR_le in H. exfalso; lra. }
      apply IZR_le in Hj10. apply IZR_le in Hk11.
      apply Rle_lt_trans with (gamma (10 / 255)).
      { apply gamma_linear_monotone; lra. }
      apply Rlt_le_trans with (gamma (11 / 255)).
      { apply gamma_crossing_strict. }
      apply gamma_power_monotone; lra.
    + apply gamma_power_strict; [exact Hj | lra].
Qed.

(** X5: on valid Colors the luminance is strictly monotone: raising at
    least one channel and lowering none raises the luminance, so two
    different valid Colors ordered channel by channel never share a
    luminance. *)
Theorem luminance_strictly_monotone (r g b r' g' b' : Z) :
  is_color [r; g; b] = true -> is_color [r'; g'; b'] = true ->
  (r <= r')%Z -> (g <= g')%Z -> (b <= b')%Z ->
  [r; g; b] <> [r'; g'; b'] ->
  luminance (IZR r) (IZR g) (IZR b) < luminance (IZR r') (IZR g') (IZR b').
Proof.
  intros _ _ Hr Hg Hb Hne. rewrite !luminance_unfold.
  pose proof (gamma_channel_monotone _ _ Hr) as Gr.
  pose proof (gamma_channel_monotone _ _ Hg) as Gg.
  pose proof (gamma_channel_monotone _ _ Hb) as Gb.
  destruct (Z.eq_dec r r') as [Er | Er].
  - destruct (Z.eq_dec g g') as [Eg | Eg].
    + destruct (Z.eq_dec b b') as [Eb | Eb].
      * exfalso. apply Hne. congruence.
      * assert (S : gamma (IZR b / 255) < gamma (IZR b' / 255))
          by (apply gamma_channel_strict; lia).
        lra.
    + assert (S : gamma (IZR g / 255) < gamma (IZR g' / 255))
        by (apply gamma_channel_strict; lia).
      lra.
  - assert (S : gamma (IZR r / 255) < gamma (IZR r' / 255))
      by (apply gamma_channel_strict; lia).
    lra.
Qed.

Lemma luminance_strictly_monotone_witness :
  luminance 10 200 30 < luminance 11 200 30.
Proof.
  apply (luminance_strictly_monotone 10 200 30 11 200 30);
    try reflexivity; try lia.
  intros H. discriminate H.
Defined.

(** X6: lightening the lighter colour and darkening the darker one,
    channel by channel, never lowers the contrast ratio of two valid
    Colors. *)
Theorem contrast_ratio_monotone (r1 g1 b1 r1' g1' b1' r2 g2 b2 r2' g2' b2' : Z) :
  is_color [r1; g1; b1] = true -> is_color [r1'; g1'; b1'] = true ->
  is_color [r2; g2; b2] = true -> is_color [r2'; g2'; b2'] = true ->
  (r1 <= r1')%Z -> (g1 <= g1')%Z -> (b1 <= b1')%Z ->
  (r2' <= r2)%Z -> (g2' <= g2)%Z -> (b2' <= b2)%Z ->
  luminance (IZR r2) (IZR g2) (IZR b2) <= luminance (IZR r1) (IZR g1) (IZR b1) ->
  exists q q',
    contrast_ratio (floats [r1; g1; b1]) (floats [r2; g2; b2]) = Ok q /\
    contrast_ratio (floats [r1'; g1'; b1']) (floats [r2'; g2'; b2']) = Ok q' /\
    q <= q'.
Proof.
  intros C1 C1' C2 C2' Hr1 Hg1 Hb1 Hr2 Hg2 Hb2 Hle.
  pose proof (luminance_color_range _ _ _ C1) as R1.
  pose proof (luminance_color_range _ _ _ C1') as R1'.
  pose proof (luminance_color_range _ _ _ C2) as R2.
  pose proof (luminance_color_range _ _ _ C2') as R2'.
  pose proof (luminance_channels_monotone _ _ _ _ _ _ Hr1 Hg1 Hb1) as M1.
  pose proof (luminance_channels_monotone _ _ _ _ _ _ Hr2 Hg2 Hb2) as M2.
  unfold floats. cbn [map].
  do 2 eexists. split; [apply contrast_ratio_value; lra | ].
  split; [apply contrast_ratio_value; lra | ].
  set (a := luminance (IZR r1) (IZR g1) (IZR b1)) in *.
  set (c := luminance (IZR r1') (IZR g1') (IZR b1')) in *.
  set (b := luminance (IZR r2) (IZR g2) (IZR b2)) in *.
  set (d := luminance (IZR r2') (IZR g2') (IZR b2')) in *.
  rewrite (py_max_left a b), (py_min_right a b) by lra.
  rewrite (py_max_left c d), (py_min_right c d) by lra.
  apply Rmult_le_reg_r with (b + 0.05); [lra | ].
  unfold Rdiv at 1. rewrite Rmult_assoc, Rinv_l, Rmult_1_r by lra.
  apply Rmult_le_reg_r with (d + 0.05); [lra | ].
  replace ((c + 0.05) / (d + 0.05) * (b + 0.05) * (d + 0.05))
    with ((c + 0.05) * (b + 0.05) * ((d + 0.05) * / (d + 0.05)))
    by (unfold Rdiv; ring).
  rewrite Rinv_r, Rmult_1_r by lra.
  nra.
Qed.

Lemma contrast_ratio_monotone_witness :
  exists q q',
    contrast_ratio (floats [200; 200; 200]%Z) (floats [50; 60; 70]%Z) = Ok q /\
    contrast_ratio (floats [210; 200; 255]%Z) (floats [50; 0; 70]%Z) = Ok q' /\
    q <= q'.
Proof.
  apply (contrast_ratio_monotone 200 200 200 210 200 255 50 60 70 50 0 70);
    try reflexivity; try lia.
  apply luminance_channels_monotone; lia.
Defined.

(** X7: the label never decreases when the ratio grows. *)
Theorem label_monotone (q1 q2 : R) :
  q1 <= q2 -> (label q1 <= label q2)%Z.
Proof.
  intros H. unfold label.
  destruct (Rge_dec q1 4.5); destruct (Rge_dec q2 4.5); try lia.
  exfalso; lra.
Qed.

Lemma label_monotone_witness : (label 3 <= label 5.5)%Z.
Proof. apply (label_monotone 3 5.5). lra. Defined.

(** X9: every valid Color has a comfortable partner: against black or
    against white its pair is labelled 1. *)
Theorem label_black_or_white (c : color) :
  is_color c = true ->
  exists qb qw,
    contrast_ratio (floats c) (floats black) = Ok qb /\
    contrast_ratio (floats c) (floats white) = Ok qw /\
    (label qb = 1%Z \/ label qw = 1%Z).
Proof.
  intros Hc. destruct (is_color_inv _ Hc) as (r & g & b & -> & _).
  pose proof (luminance_color_range _ _ _ Hc) as HL.
  unfold floats, black, white. cbn [map].
  do 2 eexists.
  split; [apply contrast_ratio_value; rewrite ?luminance_black; lra | ].
  split; [apply contrast_ratio_value; rewrite ?luminance_white; lra | ].
  rewrite luminance_black, luminance_white.
  set (L := luminance (IZR r) (IZR g) (IZR b)) in *.
  rewrite (py_max_left L 0), (py_min_right L 0) by lra.
  rewrite (py_max_comm L 1), (py_min_comm L 1).
  rewrite (py_max_left 1 L), (py_min_right 1 L) by lra.
  unfold label.
  destruct (Rge_dec ((L + 0.05) / (0 + 0.05)) 4.5) as [Hb | Hb]; [left; reflexivity | ].
  destruct (Rge_dec ((1 + 0.05) / (L + 0.05)) 4.5) as [Hw | Hw]; [right; reflexivity | ].
  exfalso.
  assert (Eb : (L + 0.05) / (0 + 0.05) = 20 * L + 1) by lra.
  assert (HL1 : L < 0.175) by lra.
  apply Hw. apply Rle_ge.
  apply Rmult_le_reg_r with (L + 0.05); [lra | ].
  unfold Rdiv. rewrite Rmult_assoc, Rinv_l by lra. lra.
Qed.

Lemma label_black_or_white_witness :
  exists qb qw,
    contrast_ratio (floats [120; 120; 120]%Z) (floats black) = Ok qb /\
    contrast_ratio (floats [120; 120; 120]%Z) (floats white) = Ok qw /\
    (label qb = 1%Z \/ label qw = 1%Z).
Proof.
  apply (label_black_or_white [120; 120; 120]%Z). reflexivity.
Defined.

(** * Further properties of the generation loop *)

Lemma draw_channels_app {gen : Type} (randint : Z -> Z -> gen -> Z * gen)
      (a b : nat) (s : gen) :
  draw_channels randint (a + b) s =
  (fst (draw_channels randint a s) ++
     fst (draw_channels randint b (snd (draw_channels randint a s))),
   snd (draw_channels randint b (snd (draw_channels randint a s)))).
Proof.
  revert s. induction a as [| a IH]; intros s.
  - cbn [Nat.add draw_channels fst snd app].
    destruct (draw_channels randint b s); reflexivity.
  - cbn [Nat.add draw_channels].
    destruct (randint 0%Z 255%Z s) as [v s1].
    rewrite IH.
    destruct (draw_channels randint a s1) as [vs s2].
    reflexivity.
Qed.

Lemma row_channels_row_of r1 g1 b1 r2 g2 b2 q l :
  row_channels (row_of [r1; g1; b1] [r2; g2; b2] q l) =
  map (fun v => Some (CInt v)) ([r1; g1; b1] ++ [r2; g2; b2]).
Proof. reflexivity. Qed.

Section LoopFacts.

Variable gen : Type.
Variable randint : Z -> Z -> gen -> Z * gen.

Hypothesis randint_range :
  forall (a b : Z) (s : gen), (a <= b)%Z -> (a <= fst (randint a b s) <= b)%Z.

(** The row an iteration appends is built from its six draws alone. *)
Lemma loop_body_exact (rows : list row) (s : gen) :
  exists rw,
    loop_body randint (rows, s) =
      Ok (rows ++ [rw], snd (draw_channels randint 6 s)) /\
    row_channels rw =
      map (fun v => Some (CInt v)) (fst (draw_channels randint 6 s)) /\
    forall rows0 : list row,
      loop_body randint (rows0, s) =
        Ok (rows0 ++ [rw], snd (draw_channels randint 6 s)).
Proof.
  change 6%nat with (3 + 3)%nat. rewrite draw_channels_app. cbn [fst snd].
  unfold loop_body.
  destruct (draw_three gen randint randint_range s) as (r1 & g1 & b1 & E1 & C1).
  destruct (draw_channels randint 3 s) as [fg s1].
  cbn [fst snd] in *. subst fg.
  destruct (draw_three gen randint randint_range s1) as (r2 & g2 & b2 & E2 & C2).
  destruct (draw_channels randint 3 s1) as [bg s2].
  cbn [fst snd] in *. subst bg.
  destruct (contrast_ratio_colors _ _ C1 C2) as (q & Hq & _).
  rewrite Hq. cbn [bind item nth_error].
  exists (row_of [r1; g1; b1] [r2; g2; b2] q (label q)).
  split; [reflexivity | ]. split; [apply row_channels_row_of | ].
  intros rows0. reflexivity.
Qed.

Lemma for_range_exact (n : nat) :
  forall s : gen,
  exists new,
    List.length new = n /\
    flat_map row_channels new =
      map (fun v => Some (CInt v)) (fst (draw_channels randint (6 * n) s)) /\
    forall rows : list row,
      for_range randint n (rows, s) =
        Ok (rows ++ new, snd (draw_channels randint (6 * n) s)).
Proof.
  induction n as [| n IH]; intros s.
  - exists []. split; [reflexivity | ]. split; [reflexivity | ].
    intros rows. cbn [for_range]. rewrite app_nil_r. reflexivity.
  - destruct (loop_body_exact [] s) as (rw & _ & Hch & Hstep).
    destruct (IH (snd (draw_channels randint 6 s))) as (new & Hlen & Hnew & Hrun).
    replace (6 * S n)%nat with (6 + 6 * n)%nat by lia.
    rewrite draw_channels_app. cbn [fst snd].
    exists (rw :: new). split; [cbn [List.length]; lia | ]. split.
    + cbn [flat_map]. rewrite Hch, Hnew, map_app. reflexivity.
    + intros rows. cbn [for_range]. rewrite Hstep. cbn [bind].
      rewrite Hrun, <- app_assoc. reflexivity.
Qed.

End LoopFacts.

(** X11: the loop only appends: with a [randint] that honours its range,
    [n] iterations leave the rows already there untouched and add [n]
    rows that depend on the generator state alone, not on the rows
    accumulated so far. *)
Theorem for_range_append_only (gen : Type) (randint : Z -> Z -> gen -> Z * gen) :
  (forall (a b : Z) (s : gen),
      (a <= b)%Z -> (a <= fst (randint a b s) <= b)%Z) ->
  forall (n : nat) (s : gen),
  exists new s',
    List.length new = n /\
    forall rows : list row,
      for_range randint n (rows, s) = Ok (rows ++ new, s').
Proof.
  intros Hrange n s.
  destruct (for_range_exact gen randint Hrange n s) as (new & Hlen & _ & Hrun).
  exists new, (snd (draw_channels randint (6 * n) s)).
  split; [exact Hlen | exact Hrun].
Qed.

Lemma for_range_append_only_witness :
  exists new s',
    List.length new = 7%nat /\
    forall rows : list row,
      for_range lcg_randint 7 (rows, 2024%Z) = Ok (rows ++ new, s').
Proof.
  apply (for_range_append_only Z lcg_randint lcg_randint_range 7 2024%Z).
Defined.

(** X12: the loop makes exactly six draws per row and stores them in
    order: read row by row, foreground before background, the channel
    cells of the table are the first [6 * n] draws of the generator, and
    the generator is left as these draws left it. *)
Theorem for_range_draws (gen : Type) (randint : Z -> Z -> gen -> Z * gen) :
  (forall (a b : Z) (s : gen),
      (a <= b)%Z -> (a <= fst (randint a b s) <= b)%Z) ->
  forall (n : nat) (s : gen),
  exists rows,
    for_range randint n ([], s) =
      Ok (rows, snd (draw_channels randint (6 * n) s)) /\
    flat_map row_channels rows =
      map (fun v => Some (CInt v)) (fst (draw_channels randint (6 * n) s)).
Proof.
  intros Hrange n s.
  destruct (for_range_exact gen randint Hrange n s) as (new & _ & Hch & Hrun).
  exists new. split; [apply (Hrun []) | exact Hch].
Qed.

Lemma for_range_draws_witness :
  exists rows,
    for_range lcg_randint 4 ([], 5%Z) =
      Ok (rows, snd (draw_channels lcg_randint (6 * 4) 5%Z)) /\
    flat_map row_channels rows =
      map (fun v => Some (CInt v)) (fst (draw_channels lcg_randint (6 * 4) 5%Z)).
Proof.
  apply (for_range_draws Z lcg_randint lcg_randint_range 4 5%Z).
Defined.

(** * The cleaning of feedback lines *)

Lemma starts_with_app (old rest : str) : starts_with old (old ++ rest) = true.
Proof.
  induction old as [| a old IH]; [reflexivity | ].
  cbn [app starts_with]. rewrite N.eqb_refl, IH. reflexivity.
Qed.

Lemma starts_with_split (old s : str) :
  starts_with old s = true -> exists rest, s = old ++ rest.
Proof.
  revert s. induction old as [| a old IH]; intros s H.
  - exists s. reflexivity.
  - destruct s as [| b s]; [discriminate | ].
    cbn [starts_with] in H. apply andb_true_iff in H. destruct H as [Hab H].
    apply N.eqb_eq in Hab. subst b.
    destruct (IH s H) as (rest & ->). exists rest. reflexivity.
Qed.

Lemma replace_from_skip (old new p rest : str) :
  replace_from old new (List.length p) (p ++ rest) = replace_from old new 0 rest.
Proof.
  induction p as [| c p IH]; [reflexivity | ].
  cbn [List.length app replace_from]. exact IH.
Qed.

Lemma str_replace_nil (a : N) (old new : str) : str_replace (a :: old) new [] = [].
Proof. reflexivity. Qed.

Lemma str_replace_match (a : N) (old new rest : str) :
  str_replace (a :: old) new ((a :: old) ++ rest) =
  new ++ str_replace (a :: old) new rest.
Proof.
  unfold str_replace. cbn [app replace_from].
  pose proof (starts_with_app (a :: old) rest) as H. cbn [app] in H.
  rewrite H.
  replace (List.length (a :: old) - 1)%nat with (List.length old)
    by (cbn [List.length]; lia).
  rewrite replace_from_skip.
  reflexivity.
Qed.

Lemma str_replace_skip (a : N) (old new : str) (c : N) (rest : str) :
  starts_with (a :: old) (c :: rest) = false ->
  str_replace (a :: old) new (c :: rest) = c :: str_replace (a :: old) new rest.
Proof.
  intros H. unfold str_replace. cbn [replace_from]. rewrite H. reflexivity.
Qed.

(** The induction that follows the scan of [str_replace]. *)
Lemma str_replace_scan (a : N) (old new : str) (P : str -> str -> Prop) :
  P [] [] ->
  (forall rest,
      P rest (str_replace (a :: old) new rest) ->
      P ((a :: old) ++ rest) (new ++ str_replace (a :: old) new rest)) ->
  (forall c rest,
      starts_with (a :: old) (c :: rest) = false ->
      P rest (str_replace (a :: old) new rest) ->
      P (c :: rest) (c :: str_replace (a :: old) new rest)) ->
  forall s, P s (str_replace (a :: old) new s).
Proof.
  intros Hnil Hmatch Hskip s.
  assert (H : forall n s, (List.length s <= n)%nat ->
                          P s (str_replace (a :: old) new s)).
  { clear s. induction n as [| n IH]; intros s Hlen.
    - destruct s; [exact Hnil | simpl in Hlen; lia].
    - destruct s as [| c rest]; [exact Hnil | ].
      destruct (starts_with (a :: old) (c :: rest)) eqn:E.
      + destruct (starts_with_split _ _ E) as (rest' & Es).
        rewrite Es, str_replace_match. apply Hmatch. apply IH.
        apply (f_equal (@List.length N)) in Es.
        rewrite length_app in Es. simpl in Es, Hlen. lia.
      + rewrite str_replace_skip by exact E. apply Hskip; [exact E | ].
        apply IH. simpl in Hlen. lia. }
  apply (H (List.length s)). lia.
Qed.

Lemma starts_with_extend (old s q : str) :
  starts_with old s = true -> starts_with old (s ++ q) = true.
Proof.
  intros H. destruct (starts_with_split _ _ H) as (rest & ->).
  rewrite <- app_assoc. apply starts_with_app.
Qed.

Lemma contains_suffix (old p s : str) :
  contains old s = true -> contains old (p ++ s) = true.
Proof.
  intros H. induction p as [| c p IH]; [exact H | ].
  cbn [app contains]. rewrite IH. apply orb_true_r.
Qed.

Lemma contains_prefix (old s q : str) :
  contains old s = true -> contains old (s ++ q) = true.
Proof.
  induction s as [| c s IH]; intros H.
  - cbn [contains] in H. destruct old; [ | discriminate].
    destruct q; reflexivity.
  - cbn [contains] in H. apply orb_true_iff in H.
    change ((c :: s) ++ q) with (c :: (s ++ q)). cbn [contains].
    apply orb_true_iff. destruct H as [H | H].
    + left. apply (starts_with_extend old (c :: s) q H).
    + right. apply IH. exact H.
Qed.

Lemma contains_cons_false (old : str) (c : N) (s : str) :
  contains old (c :: s) = false ->
  starts_with old (c :: s) = false /\ contains old s = false.
Proof. cbn [contains]. intros H. apply orb_false_iff in H. exact H. Qed.

Lemma contains_single (t : N) (s : str) : contains [t] s = true <-> In t s.
Proof.
  induction s as [| c s IH].
  - split; [discriminate | intros []].
  - cbn [contains starts_with]. rewrite orb_true_iff, andb_true_r, N.eqb_eq, IH.
    split; intros [H | H]; [left | right | left | right]; auto.
Qed.

(** [s.replace(old, new)] returns [s] itself when [old] does not occur
    in [s]. *)
Lemma str_replace_absent (a : N) (old new s : str) :
  contains (a :: old) s = false -> str_replace (a :: old) new s = s.
Proof.
  induction s as [| c s IH]; intros H; [reflexivity | ].
  apply contains_cons_false in H. destruct H as [Hs Hc].
  rewrite str_replace_skip by exact Hs. rewrite IH by exact Hc. reflexivity.
Qed.

Lemma str_replace_members (a : N) (old new s : str) (c : N) :
  In c (str_replace (a :: old) new s) -> In c s \/ In c new.
Proof.
  apply (str_replace_scan a old new
           (fun s out => In c out -> In c s \/ In c new)).
  - intros [].
  - intros rest IH H. apply in_app_or in H. destruct H as [H | H].
    + right. exact H.
    + destruct (IH H) as [H' | H']; [left | right; exact H'].
      apply in_or_app. right. exact H'.
  - intros x rest _ IH [H | H].
    + left. left. exact H.
    + destruct (IH H) as [H' | H']; [left; right; exact H' | right; exact H'].
Qed.

Lemma str_replace_char_gone (t : N) (new s : str) :
  ~ In t new -> ~ In t (str_replace [t] new s).
Proof.
  intros Hnew.
  apply (str_replace_scan t [] new (fun _ out => ~ In t out)).
  - intros [].
  - intros rest IH H. apply in_app_or in H. tauto.
  - intros c rest Hs IH [H | H]; [ | tauto].
    subst c. cbn [starts_with] in Hs. rewrite N.eqb_refl in Hs. discriminate.
Qed.

(** After every pair [a a] is replaced by one other character, no pair
    [a a] is left. *)
Lemma str_replace_pair_gone (a c : N) (s : str) :
  c <> a -> contains [a; a] (str_replace [a; a] [c] s) = false.
Proof.
  intros Hca.
  apply (str_replace_scan a [a] [c]
           (fun s out => contains [a; a] out = false /\
                         (forall r, out = a :: r -> exists r', s = a :: r'))).
  - split; [reflexivity | discriminate].
  - intros rest [IH _]. split.
    + cbn [app contains starts_with].
      replace (a =? c)%N with false by (symmetry; apply N.eqb_neq; congruence).
      exact IH.
    + intros r E. cbn [app] in E. congruence.
  - intros x rest Hs [IH Hhd]. split.
    + cbn [contains]. rewrite IH, orb_false_r.
      destruct (starts_with [a; a] (x :: str_replace [a; a] [c] rest)) eqn:E;
        [ | reflexivity].
      exfalso. destruct (starts_with_split _ _ E) as (r & Er).
      cbn [app] in Er. injection Er as -> Er.
      destruct (Hhd _ Er) as (r' & ->).
      cbn [starts_with] in Hs. rewrite !N.eqb_refl in Hs. discriminate.
    + intros r E. injection E as -> _. exists rest. reflexivity.
Qed.

Lemma str_replace_filter (keep : N -> bool) (a : N) (old new s : str) :
  filter keep (a :: old) = [] -> filter keep new = [] ->
  filter keep (str_replace (a :: old) new s) = filter keep s.
Proof.
  intros Hold Hnew.
  apply (str_replace_scan a old new
           (fun s out => filter keep out = filter keep s)).
  - reflexivity.
  - intros rest IH. rewrite !filter_app, Hold, Hnew, IH. reflexivity.
  - intros c rest _ IH. cbn [filter]. rewrite IH. reflexivity.
Qed.

Lemma starts_with_snoc (old s : str) (n : N) :
  starts_with old (s ++ [n]) = true -> starts_with old s = true \/ In n old.
Proof.
  revert s. induction old as [| a old IH]; intros s H; [left; reflexivity | ].
  destruct s as [| b s].
  - cbn [app starts_with] in H. apply andb_true_iff in H. destruct H as [H _].
    apply N.eqb_eq in H. right. left. exact H.
  - cbn [app starts_with] in H. apply andb_true_iff in H. destruct H as [Hab H].
    destruct (IH s H) as [H' | H'].
    + left. cbn [starts_with]. rewrite Hab, H'. reflexivity.
    + right. right. exact H'.
Qed.

Lemma str_replace_snoc (a : N) (old new s : str) (n : N) :
  ~ In n (a :: old) ->
  str_replace (a :: old) new (s ++ [n]) = str_replace (a :: old) new s ++ [n].
Proof.
  intros Hn.
  assert (Hfalse : forall t, starts_with (a :: old) t = false ->
                             starts_with (a :: old) (t ++ [n]) = false).
  { intros t Ht. destruct (starts_with (a :: old) (t ++ [n])) eqn:E; [ | reflexivity].
    destruct (starts_with_snoc _ _ _ E) as [H | H]; [congruence | contradiction]. }
  apply (str_replace_scan a old new
           (fun s out => str_replace (a :: old) new (s ++ [n]) = out ++ [n])).
  - cbn [app]. rewrite str_replace_skip; [reflexivity | ].
    apply (Hfalse []). reflexivity.
  - intros rest IH. rewrite <- !app_assoc, str_replace_match, IH. reflexivity.
  - intros c rest Hs IH. cbn [app]. rewrite str_replace_skip.
    + rewrite IH. reflexivity.
    + apply (Hfalse (c :: rest) Hs).
Qed.


Section StripFacts.

Variable isspace : N -> bool.

Lemma lstrip_suffix (s : str) :
  exists p, s = p ++ lstrip isspace s /\ forallb isspace p = true.
Proof.
  induction s as [| c s IH].
  - exists []. split; reflexivity.
  - cbn [lstrip]. destruct (isspace c) eqn:E.
    + destruct IH as (p & Hp & Hall). exists (c :: p). split.
      * cbn [app]. rewrite <- Hp. reflexivity.
      * cbn [forallb]. rewrite E, Hall. reflexivity.
    + exists []. split; reflexivity.
Qed.

Lemma rstrip_prefix (s : str) :
  exists q, s = rstrip isspace s ++ q /\ forallb isspace q = true.
Proof.
  unfold rstrip. destruct (lstrip_suffix (rev s)) as (p & Hp & Hall).
  exists (rev p). split.
  - rewrite <- rev_app_distr, <- Hp, rev_involutive. reflexivity.
  - rewrite forallb_forall in *. intros x Hx. apply Hall.
    apply in_rev. exact Hx.
Qed.

Lemma strip_substring (s : str) :
  exists p q,
    s = p ++ strip isspace s ++ q /\
    forallb isspace p = true /\ forallb isspace q = true.
Proof.
  unfold strip. destruct (lstrip_suffix s) as (p & Hp & Hpall).
  destruct (rstrip_prefix (lstrip isspace s)) as (q & Hq & Hqall).
  exists p, q. split; [ | split; assumption].
  rewrite <- Hq. exact Hp.
Qed.

Lemma lstrip_head (s : str) (c : N) (r : str) :
  lstrip isspace s = c :: r -> isspace c = false.
Proof.
  induction s as [| x s IH]; [discriminate | ].
  cbn [lstrip]. destruct (isspace x) eqn:E; [exact IH | ].
  intros H. injection H as -> _. exact E.
Qed.

Lemma lstrip_fixed (s : str) :
  (forall c r, s = c :: r -> isspace c = false) -> lstrip isspace s = s.
Proof.
  destruct s as [| c s]; [reflexivity | ].
  intros H. cbn [lstrip]. rewrite (H c s eq_refl). reflexivity.
Qed.

Lemma lstrip_keeps_last (u : str) (c : N) :
  isspace c = false -> exists v, lstrip isspace (u ++ [c]) = v ++ [c].
Proof.
  intros Hc. induction u as [| x u IH].
  - exists []. cbn [app lstrip]. rewrite Hc. reflexivity.
  - cbn [app lstrip]. destruct (isspace x); [exact IH | ].
    exists (x :: u). reflexivity.
Qed.

Lemma rstrip_last (s r : str) (c : N) :
  rstrip isspace s = r ++ [c] -> isspace c = false.
Proof.
  unfold rstrip. intros H.
  apply (f_equal (@rev N)) in H. rewrite rev_involutive, rev_app_distr in H.
  cbn [rev app] in H. apply lstrip_head in H. exact H.
Qed.

Lemma rstrip_keeps_head (c : N) (t : str) :
  isspace c = false -> exists v, rstrip isspace (c :: t) = c :: v.
Proof.
  intros Hc. unfold rstrip. cbn [rev].
  destruct (lstrip_keeps_last (rev t) c Hc) as (v & ->).
  exists (rev v). rewrite rev_app_distr. reflexivity.
Qed.

Lemma rstrip_involutive (s : str) :
  rstrip isspace (rstrip isspace s) = rstrip isspace s.
Proof.
  unfold rstrip. rewrite rev_involutive. f_equal.
  apply lstrip_fixed. intros c r H. apply lstrip_head in H. exact H.
Qed.

Lemma strip_head (s : str) (c : N) (r : str) :
  strip isspace s = c :: r -> isspace c = false.
Proof.
  unfold strip. destruct (lstrip isspace s) as [| x t] eqn:E.
  - discriminate.
  - pose proof (lstrip_head _ _ _ E) as Hx.
    destruct (rstrip_keeps_head x t Hx) as (v & ->).
    intros H. injection H as -> _. exact Hx.
Qed.

Lemma strip_last (s r : str) (c : N) :
  strip isspace s = r ++ [c] -> isspace c = false.
Proof. unfold strip. apply rstrip_last. Qed.

Lemma strip_fixed (s : str) :
  (forall c r, s = c :: r -> isspace c = false) ->
  (forall r c, s = r ++ [c] -> isspace c = false) ->
  strip isspace s = s.
Proof.
  intros Hhd Hlast. unfold strip. rewrite (lstrip_fixed s Hhd).
  unfold rstrip. rewrite lstrip_fixed; [apply rev_involutive | ].
  intros c r H. apply (Hlast (rev r) c).
  rewrite <- (rev_involutive s), H. reflexivity.
Qed.

Lemma strip_involutive (s : str) :
  strip isspace (strip isspace s) = strip isspace s.
Proof.
  apply strip_fixed.
  - intros c r H. apply strip_head in H. exact H.
  - intros r c H. apply strip_last in H. exact H.
Qed.

Lemma strip_contains (old s : str) :
  contains old s = false -> contains old (strip isspace s) = false.
Proof.
  intros H. destruct (contains old (strip isspace s)) eqn:E; [ | reflexivity].
  destruct (strip_substring s) as (p & q & Hs & _).
  rewrite Hs in H. rewrite contains_suffix in H; [discriminate | ].
  apply contains_prefix. exact E.
Qed.

Lemma strip_members (s : str) (c : N) : In c (strip isspace s) -> In c s.
Proof.
  intros H. destruct (strip_substring s) as (p & q & Hs & _).
  rewrite Hs. apply in_or_app. right. apply in_or_app. left. exact H.
Qed.

Lemma filter_whitespace (keep : N -> bool) (p : str) :
  (forall c, isspace c = true -> keep c = false) ->
  forallb isspace p = true -> filter keep p = [].
Proof.
  intros Hk. induction p as [| c p IH]; [reflexivity | ].
  cbn [forallb filter]. intros H. apply andb_true_iff in H. destruct H as [Hc Hp].
  rewrite (Hk c Hc). apply IH. exact Hp.
Qed.

Lemma strip_filter (keep : N -> bool) (s : str) :
  (forall c, isspace c = true -> keep c = false) ->
  filter keep (strip isspace s) = filter keep s.
Proof.
  intros Hk. destruct (strip_substring s) as (p & q & Hs & Hp & Hq).
  rewrite Hs at 2. rewrite !filter_app.
  rewrite (filter_whitespace keep p Hk Hp), (filter_whitespace keep q Hk Hq).
  rewrite app_nil_r. reflexivity.
Qed.

Lemma lstrip_snoc_space (y : str) (n : N) :
  isspace n = true ->
  lstrip isspace (y ++ [n]) = lstrip isspace y ++ [n] \/
  (lstrip isspace y = [] /\ lstrip isspace (y ++ [n]) = []).
Proof.
  intros Hn. induction y as [| c y IH].
  - right. cbn [app lstrip]. rewrite Hn. split; reflexivity.
  - cbn [app lstrip]. destruct (isspace c); [exact IH | left; reflexivity].
Qed.

Lemma rstrip_snoc_space (y : str) (n : N) :
  isspace n = true -> rstrip isspace (y ++ [n]) = rstrip isspace y.
Proof.
  intros Hn. unfold rstrip. rewrite rev_app_distr. cbn [rev app lstrip].
  rewrite Hn. reflexivity.
Qed.

Lemma strip_snoc_space (y : str) (n : N) :
  isspace n = true -> strip isspace (y ++ [n]) = strip isspace y.
Proof.
  intros Hn. unfold strip.
  destruct (lstrip_snoc_space y n Hn) as [-> | [-> ->]].
  - apply rstrip_snoc_space. exact Hn.
  - reflexivity.
Qed.

End StripFacts.

Lemma clean_members (isspace : N -> bool) (line : str) (c : N) :
  In c (clean isspace line) -> In c line \/ c = COMMA.
Proof.
  unfold clean. intros H. apply strip_members in H.
  apply str_replace_members in H. destruct H as [H | [H | []]]; [ | right; auto].
  apply str_replace_members in H. destruct H as [H | [H | []]]; [left | right]; auto.
Qed.

Lemma tab_replaced (line : str) :
  contains [TAB] (str_replace [SPACE; SPACE] [COMMA]
                    (str_replace [TAB] [COMMA] line)) = false.
Proof.
  destruct (contains [TAB] _) eqn:E; [exfalso | reflexivity].
  apply contains_single in E. apply str_replace_members in E.
  destruct E as [E | [E | []]]; [ | discriminate E].
  revert E. apply str_replace_char_gone. intros [H | []]. discriminate H.
Qed.

Lemma pairs_replaced (line : str) :
  contains [SPACE; SPACE] (str_replace [SPACE; SPACE] [COMMA]
                             (str_replace [TAB] [COMMA] line)) = false.
Proof. apply str_replace_pair_gone. discriminate. Qed.


Lemma clean_free (isspace : N -> bool) (line : str) :
  contains [TAB] (clean isspace line) = false /\
  contains [SPACE; SPACE] (clean isspace line) = false.
Proof.
  unfold clean. split; apply strip_contains.
  - apply tab_replaced.
  - apply pairs_replaced.
Qed.

(** X13: a cleaned line holds no tab and no two consecutive spaces. *)
Theorem clean_no_tab_no_pair (isspace : N -> bool) (line : str) :
  contains [TAB] (clean isspace line) = false /\
  contains [SPACE; SPACE] (clean isspace line) = false.
Proof. apply clean_free. Qed.

(** X14: a cleaned line neither starts nor ends with a whitespace
    character. *)
Theorem clean_edges (isspace : N -> bool) (line : str) :
  (forall c r, clean isspace line = c :: r -> isspace c = false) /\
  (forall r c, clean isspace line = r ++ [c] -> isspace c = false).
Proof.
  unfold clean. split.
  - intros c r H. apply strip_head in H. exact H.
  - intros r c H. apply strip_last in H. exact H.
Qed.

Lemma clean_edges_witness :
  clean py_isspace [32; 9; 97; 32; 32; 98; 32; 10]%N = [44; 97; 44; 98]%N /\
  py_isspace 44%N = false /\ py_isspace 98%N = false.
Proof.
  assert (E : clean py_isspace [32; 9; 97; 32; 32; 98; 32; 10]%N = [44; 97; 44; 98]%N)
    by reflexivity.
  split; [exact E | ]. split.
  - apply (proj1 (clean_edges py_isspace [32; 9; 97; 32; 32; 98; 32; 10]%N)
             44%N [97; 44; 98]%N E).
  - apply (proj2 (clean_edges py_isspace [32; 9; 97; 32; 32; 98; 32; 10]%N)
             [44; 97; 44]%N 98%N E).
Defined.

(** X15: cleaning is idempotent: a cleaned line is left as it is by a
    second cleaning. *)
Theorem clean_idempotent (isspace : N -> bool) (line : str) :
  clean isspace (clean isspace line) = clean isspace line.
Proof.
  destruct (clean_free isspace line) as [Htab Hpair].
  unfold clean at 1.
  rewrite (str_replace_absent TAB [] [COMMA]) by exact Htab.
  rewrite (str_replace_absent SPACE [SPACE] [COMMA]) by exact Hpair.
  unfold clean. apply strip_involutive.
Qed.

(** X16: cleaning keeps the data: when tab and space are whitespace, the
    characters of a line that are neither whitespace nor commas are the
    same, in the same order, before and after. *)
Theorem clean_keeps_data (isspace : N -> bool) (line : str) :
  isspace TAB = true -> isspace SPACE = true ->
  filter (fun c => negb (isspace c) && negb (c =? COMMA)%N) (clean isspace line) =
  filter (fun c => negb (isspace c) && negb (c =? COMMA)%N) line.
Proof.
  intros Ht Hs. unfold clean.
  rewrite strip_filter
    by (intros c Hc; rewrite Hc; reflexivity).
  assert (Hcomma : filter (fun c => negb (isspace c) && negb (c =? COMMA)%N)
                          [COMMA] = []).
  { cbn [filter]. rewrite N.eqb_refl, andb_false_r. reflexivity. }
  rewrite str_replace_filter;
    [ | cbn [filter]; rewrite Hs; reflexivity | exact Hcomma].
  apply str_replace_filter; [cbn [filter]; rewrite Ht; reflexivity | exact Hcomma].
Qed.

Lemma clean_keeps_data_witness :
  filter (fun c => negb (py_isspace c) && negb (c =? COMMA)%N)
         (clean py_isspace [97; 9; 9; 98; 32; 32; 32; 99; 10]%N) =
  filter (fun c => negb (py_isspace c) && negb (c =? COMMA)%N)
         [97; 9; 9; 98; 32; 32; 32; 99; 10]%N.
Proof.
  apply (clean_keeps_data py_isspace [97; 9; 9; 98; 32; 32; 32; 99; 10]%N);
    reflexivity.
Defined.



Lemma clean_snoc_newline (isspace : N -> bool) (line : str) :
  isspace NEWLINE = true ->
  clean isspace (line ++ [NEWLINE]) = clean isspace line.
Proof.
  intros Hn. unfold clean.
  rewrite str_replace_snoc by (intros [H | []]; discriminate H).
  rewrite str_replace_snoc by (intros [H | [H | []]]; discriminate H).
  apply strip_snoc_space. exact Hn.
Qed.

(** X18: when the newline is whitespace, the terminator of a line read
    from the file does not reach [clean]: the line with and without its
    final newline are cleaned to the same text. *)
Theorem clean_drops_terminator (isspace : N -> bool) (line : str) :
  isspace NEWLINE = true ->
  clean isspace (line ++ [NEWLINE]) = clean isspace line.
Proof. apply clean_snoc_newline. Qed.

Lemma clean_drops_terminator_witness :
  clean py_isspace ([120; 9; 121]%N ++ [NEWLINE]) = clean py_isspace [120; 9; 121]%N.
Proof.
  apply (clean_drops_terminator py_isspace [120; 9; 121]%N). reflexivity.
Defined.

Lemma clean_no_newline (isspace : N -> bool) (line : str) :
  isspace NEWLINE = true ->
  ~ In NEWLINE (removelast line) -> ~ In NEWLINE (clean isspace line).
Proof.
  intros Hn Hbody H.
  destruct line as [| c t]; [exact H | ].
  assert (Hne : c :: t <> []) by discriminate.
  pose proof (app_removelast_last 0%N Hne) as E.
  set (body := removelast (c :: t)) in *. set (z := last (c :: t) 0%N) in *.
  rewrite E in H. destruct (N.eq_dec z NEWLINE) as [Hz | Hz].
  - rewrite Hz, clean_snoc_newline in H by exact Hn.
    apply clean_members in H. destruct H as [H | H]; [auto | discriminate H].
  - apply clean_members in H. destruct H as [H | H]; [ | discriminate H].
    apply in_app_or in H. destruct H as [H | [H | []]]; auto.
Qed.

(** X19: the output has one line per input line: when the newline is
    whitespace and the lines read hold a newline at their end only, the
    text written contains exactly as many newlines as lines were read. *)
Theorem clean_file_line_count (isspace : N -> bool) (lines : list str) :
  isspace NEWLINE = true ->
  Forall (fun line => ~ In NEWLINE (removelast line)) lines ->
  count_occ N.eq_dec (clean_file isspace lines) NEWLINE = List.length lines.
Proof.
  intros Hn Hall. induction Hall as [| line lines Hline _ IH]; [reflexivity | ].
  unfold clean_file in *. cbn [flat_map List.length].
  rewrite !count_occ_app, IH.
  rewrite (proj1 (count_occ_not_In N.eq_dec _ _)
             (clean_no_newline isspace line Hn Hline)).
  reflexivity.
Qed.

Lemma clean_file_line_count_witness :
  count_occ N.eq_dec
    (clean_file py_isspace [[97; 9; 98; 10]; [10]; [99; 32; 32; 100]]%N) NEWLINE
  = 3%nat.
Proof.
  apply (clean_file_line_count py_isspace
           [[97; 9; 98; 10]; [10]; [99; 32; 32; 100]]%N); [reflexivity | ].
  repeat constructor; cbn [removelast In]; intros H;
    repeat (destruct H as [H | H]; [discriminate H | ]); exact H.
Defined.

(** * Replacement in general, and the emoji fallback of [safe_print] *)

Lemma disjointb_spec (new old : str) :
  disjointb new old = true -> forall x, In x new -> ~ In x old.
Proof.
  unfold disjointb. rewrite forallb_forall. intros H x Hx Hold.
  specialize (H x Hx). apply negb_true_iff in H.
  assert (E : existsb (N.eqb x) old = true).
  { apply existsb_exists. exists x. split; [exact Hold | apply N.eqb_refl]. }
  congruence.
Qed.

Lemma disjointb_cons (new : str) (x : N) (q : str) :
  disjointb new (x :: q) = true -> disjointb new q = true.
Proof.
  unfold disjointb. rewrite !forallb_forall. intros H y Hy.
  specialize (H y Hy). cbn [existsb] in H.
  apply negb_true_iff in H. apply orb_false_iff in H.
  apply negb_true_iff. apply H.
Qed.

(** Where the output of a replacement starts with [q], a text without
    any character of [new], the input starts with [q] too. *)
Lemma str_replace_starts (a : N) (old new s : str) :
  new <> [] ->
  forall q, disjointb new q = true ->
       starts_with q (str_replace (a :: old) new s) = true ->
       starts_with q s = true.
Proof.
  intros Hnew.
  apply (str_replace_scan a old new
           (fun s out => forall q, disjointb new q = true ->
                              starts_with q out = true -> starts_with q s = true)).
  - intros q _ H. exact H.
  - intros rest _ q Hq H. destruct q as [| x q]; [reflexivity | exfalso].
    destruct new as [| n new]; [contradiction | ].
    cbn [app starts_with] in H. apply andb_true_iff in H. destruct H as [H _].
    apply N.eqb_eq in H. subst x.
    apply (disjointb_spec _ _ Hq n); left; reflexivity.
  - intros c rest _ IH q Hq H. destruct q as [| x q]; [reflexivity | ].
    cbn [starts_with] in *. apply andb_true_iff in H. destruct H as [Hx H].
    rewrite Hx. cbn [andb]. apply (IH q); [ | exact H].
    apply disjointb_cons in Hq. exact Hq.
Qed.

Lemma contains_after_prefix (new pat out : str) :
  disjointb new pat = true -> contains pat out = false ->
  contains pat (new ++ out) = false.
Proof.
  intros Hd Hout. destruct pat as [| x pat].
  - destruct out; discriminate.
  - induction new as [| n new IH]; [exact Hout | ].
    cbn [app contains]. rewrite IH.
    + rewrite orb_false_r. cbn [starts_with].
      replace (x =? n)%N with false; [reflexivity | ].
      symmetry. apply N.eqb_neq. intros ->.
      apply (disjointb_spec _ _ Hd n); left; reflexivity.
    + unfold disjointb in *. cbn [forallb] in Hd.
      apply andb_true_iff in Hd. apply Hd.
Qed.

Lemma contains_drop_prefix (pat p s : str) :
  contains pat (p ++ s) = false -> contains pat s = false.
Proof.
  intros H. destruct (contains pat s) eqn:E; [ | reflexivity].
  rewrite contains_suffix in H; [discriminate | exact E].
Qed.

Lemma str_replace_gone (a : N) (old new s : str) :
  new <> [] -> disjointb new (a :: old) = true ->
  contains (a :: old) (str_replace (a :: old) new s) = false.
Proof.
  intros Hnew Hd.
  apply (str_replace_scan a old new
           (fun s out => contains (a :: old) out = false)).
  - reflexivity.
  - intros rest IH. apply contains_after_prefix; assumption.
  - intros c rest Hs IH. cbn [contains]. rewrite IH, orb_false_r.
    destruct (starts_with (a :: old) (c :: str_replace (a :: old) new rest)) eqn:E;
      [ | reflexivity].
    rewrite <- Hs. symmetry.
    apply (str_replace_starts a old new (c :: rest) Hnew (a :: old) Hd).
    rewrite str_replace_skip by exact Hs. exact E.
Qed.

Lemma str_replace_keeps_absent (a : N) (old new pat s : str) :
  new <> [] -> disjointb new pat = true ->
  contains pat s = false ->
  contains pat (str_replace (a :: old) new s) = false.
Proof.
  intros Hnew Hd.
  apply (str_replace_scan a old new
           (fun s out => contains pat s = false -> contains pat out = false)).
  - intros H. exact H.
  - intros rest IH H. apply contains_after_prefix; [exact Hd | ].
    apply IH. apply (contains_drop_prefix pat (a :: old)). exact H.
  - intros c rest Hs IH H. apply contains_cons_false in H. destruct H as [H1 H2].
    cbn [contains]. rewrite (IH H2), orb_false_r.
    destruct (starts_with pat (c :: str_replace (a :: old) new rest)) eqn:E;
      [ | reflexivity].
    rewrite <- H1. symmetry.
    apply (str_replace_starts a old new (c :: rest) Hnew pat Hd).
    rewrite str_replace_skip by exact Hs. exact E.
Qed.

Ltac emoji_step :=
  first
    [ apply str_replace_gone; [vm_compute; discriminate | reflexivity]
    | apply str_replace_keeps_absent; [vm_compute; discriminate | reflexivity | ] ].

(** X20: on Windows the text [safe_print] prints holds none of the ten
    emoji it knows, whatever the text. *)
Theorem safe_print_no_emoji (text e : str) :
  In e emoji -> contains e (safe_print true text) = false.
Proof.
  unfold emoji, safe_print. cbv zeta. intros H.
  do 10 (destruct H as [<- | H]; [solve [repeat emoji_step] | ]).
  destruct H.
Qed.

Lemma safe_print_no_emoji_witness :
  contains [128737; 65039]%N
    (safe_print true [128737; 9989; 65039; 128737; 65039; 32; 9888]%N) = false.
Proof.
  apply (safe_print_no_emoji [128737; 9989; 65039; 128737; 65039; 32; 9888]%N).
  unfold emoji. do 7 right. left. reflexivity.
Defined.

(** X21: a text that holds none of the ten emoji is printed as it is, on
    Windows as elsewhere. *)
Theorem safe_print_plain (IS_WINDOWS : bool) (text : str) :
  (forall e, In e emoji -> contains e text = false) ->
  safe_print IS_WINDOWS text = text.
Proof.
  intros H. unfold safe_print. destruct IS_WINDOWS; [ | reflexivity].
  assert (E : forall (a : N) (old : str) (w : string),
             In (a :: old) emoji ->
             str_replace (a :: old) (codes w) text = text).
  { intros a old w Hin. apply str_replace_absent. apply H. exact Hin. }
  cbv zeta.
  rewrite (E 129514%N []) by (unfold emoji; cbn [In]; auto 20).
  rewrite (E 9989%N []) by (unfold emoji; cbn [In]; auto 20).
  rewrite (E 10060%N []) by (unfold emoji; cbn [In]; auto 20).
  rewrite (E 9888%N [65039%N]) by (unfold emoji; cbn [In]; auto 20).
  rewrite (E 128269%N []) by (unfold emoji; cbn [In]; auto 20).
  rewrite (E 128302%N []) by (unfold emoji; cbn [In]; auto 20).
  rewrite (E 9889%N []) by (unfold emoji; cbn [In]; auto 20).
  rewrite (E 128737%N [65039%N]) by (unfold emoji; cbn [In]; auto 20).
  rewrite (E 128202%N []) by (unfold emoji; cbn [In]; auto 20).
  apply E. unfold emoji. cbn [In]. auto 20.
Qed.

Lemma safe_print_plain_witness :
  safe_print true (codes "Health check passed: 200") = codes "Health check passed: 200".
Proof.
  apply (safe_print_plain true (codes "Health check passed: 200")).
  intros e H. unfold emoji in H.
  do 10 (destruct H as [<- | H]; [reflexivity | ]). destruct H.
Defined.

(** * The element types and their ids *)

Lemma dict_get_set_same (d : dict) (k : string) (v : Z) :
  dict_get (dict_set d k v) k = Some v.
Proof.
  induction d as [| [k' v'] d IH].
  - cbn [dict_set dict_get]. rewrite String.eqb_refl. reflexivity.
  - cbn [dict_set]. destruct (String.eqb k k') eqn:E.
    + cbn [dict_get]. rewrite E. reflexivity.
    + cbn [dict_get]. rewrite E. exact IH.
Qed.

Lemma dict_get_set_other (d : dict) (k k' : string) (v : Z) :
  k' <> k -> dict_get (dict_set d k v) k' = dict_get d k'.
Proof.
  intros Hne. induction d as [| [k0 v0] d IH].
  - cbn [dict_set dict_get].
    apply String.eqb_neq in Hne. rewrite Hne. reflexivity.
  - cbn [dict_set]. destruct (String.eqb k k0) eqn:E.
    + apply String.eqb_eq in E. subst k0. cbn [dict_get].
      apply String.eqb_neq in Hne. rewrite Hne. reflexivity.
    + cbn [dict_get]. destruct (String.eqb k' k0); [reflexivity | exact IH].
Qed.

Lemma id_map_fold (l : list string) :
  forall (i : Z) (d : dict) (t : string),
    NoDup l ->
    dict_get (fold_left (fun d it => dict_set d (snd it) (fst it + 1)%Z)
                        (enumerate_from i l) d) t =
    match find (fun p => String.eqb t (snd p)) (enumerate_from i l) with
    | Some p => Some (fst p + 1)%Z
    | None => dict_get d t
    end.
Proof.
  induction l as [| x l IH]; intros i d t Hnd; [reflexivity | ].
  inversion Hnd as [| ? ? Hx Hl]; subst.
  cbn [enumerate_from fold_left find fst snd].
  rewrite (IH (i + 1)%Z _ t Hl).
  destruct (String.eqb t x) eqn:E.
  - apply String.eqb_eq in E. subst x.
    assert (Hfind : find (fun p => String.eqb t (snd p)) (enumerate_from (i + 1) l) = None).
    { clear IH Hnd Hl. generalize (i + 1)%Z as j.
      induction l as [| y l IHl]; intros j; [reflexivity | ].
      cbn [enumerate_from find snd].
      destruct (String.eqb t y) eqn:Ey.
      - apply String.eqb_eq in Ey. subst y. exfalso. apply Hx. left. reflexivity.
      - apply IHl. intros H. apply Hx. right. exact H. }
    rewrite Hfind. apply dict_get_set_same.
  - destruct (find _ (enumerate_from (i + 1) l)); [reflexivity | ].
    apply dict_get_set_other. apply String.eqb_neq. exact E.
Qed.

Lemma find_enumerate (l : list string) :
  forall (i : Z) (n : nat) (t : string),
    NoDup l -> nth_error l n = Some t ->
    find (fun p => String.eqb t (snd p)) (enumerate_from i l) =
    Some ((i + Z.of_nat n)%Z, t).
Proof.
  induction l as [| x l IH]; intros i n t Hnd Hn.
  - destruct n; discriminate.
  - inversion Hnd as [| ? ? Hx Hl]; subst.
    cbn [enumerate_from find snd]. destruct n as [| n].
    + cbn [nth_error] in Hn. injection Hn as ->.
      rewrite String.eqb_refl. f_equal. f_equal. lia.
    + cbn [nth_error] in Hn.
      destruct (String.eqb t x) eqn:E.
      * apply String.eqb_eq in E. subst x. exfalso. apply Hx.
        apply nth_error_In with n. exact Hn.
      * rewrite (IH (i + 1)%Z n t Hl Hn). f_equal. f_equal. lia.
Qed.

Lemma find_enumerate_none (l : list string) (t : string) :
  forall i : Z,
    ~ In t l -> find (fun p => String.eqb t (snd p)) (enumerate_from i l) = None.
Proof.
  induction l as [| x l IH]; intros i Hin; [reflexivity | ].
  cbn [enumerate_from find snd]. destruct (String.eqb t x) eqn:E.
  - apply String.eqb_eq in E. subst x. exfalso. apply Hin. left. reflexivity.
  - apply IH. intros H. apply Hin. right. exact H.
Qed.

Lemma id_map_position (l : list string) (n : nat) (t : string) :
  NoDup l -> nth_error l n = Some t ->
  dict_get (id_map l) t = Some (Z.of_nat n + 1)%Z.
Proof.
  intros Hnd Hn. unfold id_map.
  rewrite (id_map_fold l 0 [] t Hnd), (find_enumerate l 0 n t Hnd Hn).
  reflexivity.
Qed.

Lemma element_types_NoDup : NoDup element_types.
Proof.
  unfold element_types.
  repeat (constructor;
          [cbn [In]; intros H;
           repeat (destruct H as [H | H]; [discriminate H | ]); exact H | ]).
  constructor.
Qed.

(** X22: the id map of a list of distinct names sends each name to its
    position counted from 1, and holds no other key. *)
Theorem id_map_lookup (l : list string) (t : string) :
  NoDup l ->
  (forall n, nth_error l n = Some t ->
             dict_get (id_map l) t = Some (Z.of_nat n + 1)%Z) /\
  (~ In t l -> dict_get (id_map l) t = None).
Proof.
  intros Hnd. split.
  - intros n Hn. apply id_map_position; assumption.
  - intros Hin. unfold id_map.
    rewrite (id_map_fold l 0 [] t Hnd), (find_enumerate_none l t 0 Hin).
    reflexivity.
Qed.

Lemma id_map_lookup_witness :
  dict_get (id_map element_types) "h1" = Some (Z.of_nat 4 + 1)%Z.
Proof.
  apply (proj1 (id_map_lookup element_types "h1" element_types_NoDup) 4%nat).
  reflexivity.
Defined.

Section RandomElementFacts.

Variable gen : Type.
Variable randbelow : nat -> gen -> nat * gen.

(** The contract of the generator: an index below the length. *)
Hypothesis randbelow_range :
  forall (n : nat) (s : gen), (0 < n)%nat -> (fst (randbelow n s) < n)%nat.

Lemma random_element_sound (s : gen) :
  exists t i,
    fst (random_element randbelow s) = Some (t, i) /\
    (1 <= i <= 8)%Z /\
    nth_error element_types (Z.to_nat (i - 1)) = Some t.
Proof.
  unfold random_element, random_choice.
  change (List.length element_types) with 8%nat.
  pose proof (randbelow_range 8 s ltac:(lia)) as Hlt.
  cbn [element_types].
  fold element_types.
  destruct (randbelow 8 s) as [n s']. cbn [fst] in Hlt.
  destruct (nth_error element_types n) as [t | ] eqn:En.
  - unfold element_map.
    rewrite (id_map_position element_types n t element_types_NoDup En).
    exists t, (Z.of_nat n + 1)%Z. cbn [fst]. split; [reflexivity | ].
    split; [lia | ].
    replace (Z.to_nat (Z.of_nat n + 1 - 1)) with n by lia. exact En.
  - exfalso. apply nth_error_None in En.
    change (List.length element_types) with 8%nat in En. lia.
Qed.

Lemma draw_contexts_sound (n : nat) :
  forall s : gen,
  exists cs,
    fst (draw_contexts randbelow n s) = Some cs /\
    List.length cs = n /\
    Forall (fun c => (1 <= snd c <= 8)%Z /\
                     nth_error element_types (Z.to_nat (snd c - 1)) = Some (fst c))
           cs.
Proof.
  induction n as [| n IH]; intros s.
  - exists []. repeat split. constructor.
  - cbn [draw_contexts].
    destruct (random_element_sound s) as (t & i & E & Hi & Ht).
    destruct (random_element randbelow s) as [c s1]. cbn [fst] in E. subst c.
    destruct (IH s1) as (cs & Ecs & Hlen & Hall).
    destruct (draw_contexts randbelow n s1) as [ocs s2]. cbn [fst] in Ecs. subst ocs.
    exists ((t, i) :: cs). cbn [fst]. split; [reflexivity | ].
    split; [cbn [List.length]; lia | ].
    constructor; [split; assumption | exact Hall].
Qed.

End RandomElementFacts.

Lemma lcg_randbelow_range (n : nat) (s : Z) :
  (0 < n)%nat -> (fst (lcg_randbelow n s) < n)%nat.
Proof.
  intros H. unfold lcg_randbelow. cbn [fst].
  pose proof (Z.mod_pos_bound s (Z.of_nat n) ltac:(lia)). lia.
Qed.

(** X23: with a generator that honours its range, [random_element] never
    raises: it returns one of the eight element types with its id, the id
    lies in 1..8 and is the position of the type in [element_types]
    counted from 1. *)
Theorem random_element_id (gen : Type) (randbelow : nat -> gen -> nat * gen) :
  (forall (n : nat) (s : gen), (0 < n)%nat -> (fst (randbelow n s) < n)%nat) ->
  forall s : gen,
  exists t i,
    fst (random_element randbelow s) = Some (t, i) /\
    (1 <= i <= 8)%Z /\
    nth_error element_types (Z.to_nat (i - 1)) = Some t.
Proof. intros H s. apply random_element_sound. exact H. Qed.

Lemma random_element_id_witness :
  exists t i,
    fst (random_element lcg_randbelow 12345%Z) = Some (t, i) /\
    (1 <= i <= 8)%Z /\
    nth_error element_types (Z.to_nat (i - 1)) = Some t.
Proof.
  apply (random_element_id Z lcg_randbelow lcg_randbelow_range 12345%Z).
Defined.

(** X24: the contexts drawn for [n] rows are [n] pairs, none raises, and
    in every pair the id column agrees with the type column: the id is
    the position of the type in [element_types], counted from 1. *)
Theorem draw_contexts_columns (gen : Type) (randbelow : nat -> gen -> nat * gen) :
  (forall (n : nat) (s : gen), (0 < n)%nat -> (fst (randbelow n s) < n)%nat) ->
  forall (n : nat) (s : gen),
  exists cs,
    fst (draw_contexts randbelow n s) = Some cs /\
    List.length (map fst cs) = n /\ List.length (map snd cs) = n /\
    Forall (fun c => (1 <= snd c <= 8)%Z /\
                     nth_error element_types (Z.to_nat (snd c - 1)) = Some (fst c))
           cs.
Proof.
  intros H n s.
  destruct (draw_contexts_sound gen randbelow H n s) as (cs & E & Hlen & Hall).
  exists cs. rewrite !length_map. auto.
Qed.

Lemma draw_contexts_columns_witness :
  exists cs,
    fst (draw_contexts lcg_randbelow 50 7%Z) = Some cs /\
    List.length (map fst cs) = 50%nat /\ List.length (map snd cs) = 50%nat /\
    Forall (fun c => (1 <= snd c <= 8)%Z /\
                     nth_error element_types (Z.to_nat (snd c - 1)) = Some (fst c))
           cs.
Proof.
  apply (draw_contexts_columns Z lcg_randbelow lcg_randbelow_range 50 7%Z).
Defined.

(** * The checks of the predict endpoint *)

Lemma check_case_counts (tc : test_case) (r : reply) (p f : nat) :
  check_case tc r (p, f) =
  if case_passes tc r then (p + 1, f)%nat else (p, f + 1)%nat.
Proof.
  unfold check_case, case_passes.
  destruct r as [| | code [v | ]]; try reflexivity.
  - destruct (code =? 200)%Z; [ | reflexivity]. cbn [andb].
    destruct (expected_comfortable tc) as [e | ]; reflexivity.
  - destruct (code =? 200)%Z; reflexivity.
Qed.

Lemma predict_loop_counts (post : nat -> payload -> reply) (cases : list test_case) :
  forall (i p f : nat),
    predict_loop post cases i (p, f) =
    ((p + List.length
            (filter (fun k => case_passes (snd k) (post (fst k) (data (snd k))))
                    (combine (seq i (List.length cases)) cases)))%nat,
     (f + List.length
            (filter (fun k => negb (case_passes (snd k) (post (fst k) (data (snd k)))))
                    (combine (seq i (List.length cases)) cases)))%nat).
Proof.
  induction cases as [| tc rest IH]; intros i p f.
  - cbn. rewrite !Nat.add_0_r. reflexivity.
  - cbn [predict_loop List.length seq combine filter fst snd].
    rewrite check_case_counts.
    destruct (case_passes tc (post i (data tc))); cbn [negb];
      rewrite IH; cbn [List.length]; f_equal; lia.
Qed.

Lemma filter_split_length {A : Type} (g : A -> bool) (l : list A) :
  (List.length (filter g l) + List.length (filter (fun x => negb (g x)) l)
   = List.length l)%nat.
Proof.
  induction l as [| x l IH]; [reflexivity | ].
  cbn [filter]. destruct (g x); cbn [negb List.length]; lia.
Qed.


(** X25: every test case is counted once: whatever the server does, the
    loop over a list of cases adds exactly one to [passed] or to
    [failed] for each case. *)
Theorem predict_loop_total (post : nat -> payload -> reply)
        (cases : list test_case) (i p f : nat) :
  (fst (predict_loop post cases i (p, f)) + snd (predict_loop post cases i (p, f))
   = p + f + List.length cases)%nat.
Proof.
  rewrite predict_loop_counts. cbn [fst snd].
  pose proof (filter_split_length
                (fun k => case_passes (snd k) (post (fst k) (data (snd k))))
                (combine (seq i (List.length cases)) cases)) as H.
  rewrite length_combine, length_seq, Nat.min_id in H. lia.
Qed.



(** X27: the expectations of the test cases are those of the labelling
    rule of the data set: where a case expects a value, it expects
    [True] exactly when the ratio it declares is labelled 1. *)
Theorem test_cases_follow_label :
  Forall (fun tc =>
            forall e, expected_comfortable tc = Some e ->
                      e = (label (payload_ratio (data tc)) =? 1)%Z)
         test_cases.
Proof.
  unfold test_cases.
  repeat (constructor;
          [cbn [expected_comfortable data payload_ratio]; intros e He;
           first
             [ discriminate He
             | injection He as <-; unfold label;
               destruct (Rge_dec _ 4.5) as [Hge | Hlt];
               [try reflexivity; exfalso; lra | try reflexivity; exfalso; lra] ]
          | ]).
  constructor.
Qed.

Lemma test_cases_follow_label_witness :
  true = (label 21.0 =? 1)%Z.
Proof.
  apply (Forall_inv test_cases_follow_label true). reflexivity.
Defined.
